(** * Credential classification and identity resolution of the Mythic Go SDK

    The repository ships two patch scripts, [fix_client.py] and
    [fix_getme.py], whose payload is Go code: the JWT reclassification
    block of [NewClient] and the whole of [getMeIdentity].  This file
    embeds that Go code and proves the properties stated about it.

    Go strings are byte sequences, modelled by [string]; Go [int] values
    (status codes, user ids) are never combined arithmetically here and
    are modelled by [Z]; a [map[string]string] is a [gmap string string]. *)

From Stdlib Require Import Ascii.
From stdpp Require Import base strings gmap list pretty.

(** ** Configuration ([fix_client.py]) *)

Section Configuration.

(** [Extra] stands for the fields of the Go [Config] struct that the two
    patched functions never read or write. *)
Context {Extra : Type}.

Record Config := mkConfig {
  ServerURL : string;
  SSL : bool;
  APIToken : string;
  AccessToken : string;
  OtherFields : Extra
}.

(** Go's [strings.HasPrefix s prefix]. *)
Definition strings_HasPrefix (s prefix : string) : bool :=
  String.prefix prefix s.

(** The guard of the block added to [NewClient]:
    [config.APIToken != "" && strings.HasPrefix(config.APIToken, "eyJ")]. *)
Definition is_jwt_token (tok : string) : bool :=
  negb (bool_decide (tok = "")) && strings_HasPrefix tok "eyJ".

(** The two assignments of the block, in order:
    [config.AccessToken = config.APIToken] then [config.APIToken = ""]. *)
Definition reclassify (config : Config) : Config :=
  let config1 := mkConfig (ServerURL config) (SSL config) (APIToken config)
                          (APIToken config) (OtherFields config) in
  mkConfig (ServerURL config1) (SSL config1) ""
           (AccessToken config1) (OtherFields config1).

(** The JWT detection step of [NewClient], run right after
    [config.Validate] succeeded. *)
Definition normalize (config : Config) : Config :=
  if is_jwt_token (APIToken config) then reclassify config else config.

End Configuration.

Arguments Config : clear implicits.

(** ** Errors *)

Inductive error : Type :=
| ErrInvalidResponse
| ErrAuthenticationFailed
| ErrExternal (description : string)
| Wrapped (op : string) (cause : error) (message : string).

(** Modelled from the spec: [WrapError] is defined elsewhere in the SDK;
    section 7 says every error is wrapped with the name of the failing
    operation and a human-readable cause.  The wrapped error keeps its three
    arguments and nothing else. *)
Definition WrapError (op : string) (err : error) (message : string) : error :=
  Wrapped op err message.

(** A Go pair [(value, err)] of which exactly one side is meaningful. *)
Inductive result (A : Type) : Type :=
| Ok (a : A)
| Err (err : error).

Arguments Ok {A} a.
Arguments Err {A} err.

(** ** The HTTP vocabulary used by [getMeIdentity] *)

Record Request := mkRequest {
  Method : string;
  URL : string;
  Header : gmap string string
}.

(** [Body] is what [io.ReadAll(resp.Body)] yields for this response: the
    bytes, or the read error. *)
Record Response := mkResponse {
  StatusCode : Z;
  Body : result string
}.

Definition http_StatusOK : Z := 200.

Definition io_ReadAll (body : result string) : result string := body.

Definition is_lower (c : ascii) : bool :=
  bool_decide (97 ≤ nat_of_ascii c ≤ 122).

Definition is_upper (c : ascii) : bool :=
  bool_decide (65 ≤ nat_of_ascii c ≤ 90).

Definition is_digit (c : ascii) : bool :=
  bool_decide (48 ≤ nat_of_ascii c ≤ 57).

(** The bytes Go accepts in a header field name: letters, digits and the
    token punctuation of RFC 7230. *)
Definition validHeaderFieldByte (c : ascii) : bool :=
  is_lower c || is_upper c || is_digit c
  || bool_decide (c ∈ String.list_ascii_of_string "!#$%&'*+-.^_`|~").

Fixpoint all_bytes (P : ascii → bool) (s : string) : bool :=
  match s with
  | EmptyString => true
  | String c rest => P c && all_bytes P rest
  end.

(** The rewriting pass of Go's canonical form: an upper-case letter first
    and after each dash, lower-case letters elsewhere. *)
Fixpoint canonical_from (upper : bool) (s : string) : string :=
  match s with
  | EmptyString => EmptyString
  | String c rest =>
      let c' :=
        if upper && is_lower c then ascii_of_nat (nat_of_ascii c - 32)
        else if negb upper && is_upper c then ascii_of_nat (nat_of_ascii c + 32)
        else c in
      String c' (canonical_from (bool_decide (c' = "-"%char)) rest)
  end.

(** Go's [textproto.CanonicalMIMEHeaderKey]: a name made of valid bytes is
    put in canonical form, any other name is returned as it is. *)
Definition CanonicalMIMEHeaderKey (s : string) : string :=
  if all_bytes validHeaderFieldByte s then canonical_from true s else s.

(** [req.Header.Set(k, v)]: the value is stored under the canonical form of
    the name. *)
Definition Header_Set (k v : string) (req : Request) : Request :=
  mkRequest (Method req) (URL req)
            (<[CanonicalMIMEHeaderKey k := v]> (Header req)).

(** The header map of a new request once [Header.Set] was called for every
    entry of [headers].  The order of the calls matters only when two names
    of [headers] have the same canonical form, which no header set of the
    resolver has. *)
Definition canonical_headers (headers : gmap string string)
    : gmap string string :=
  map_fold (λ k v h, <[CanonicalMIMEHeaderKey k := v]> h) ∅ headers.

(** One round trip as seen on the wire: the request handed to
    [c.httpClient.Do] and what came back. *)
Record Exchange := mkExchange {
  sent : Request;
  reply : result Response
}.

(** What [getMeIdentity] obtains from the rest of the SDK and from the Go
    libraries.  [stripScheme] is a helper of the SDK that is not part of the
    patch; [request_error] is the validation done by
    [http.NewRequestWithContext] for the caller's context; [transport] is
    [c.httpClient.Do] acting on the outside world; [json_user_id] decodes a
    body into [struct { UserID int `json:"user_id"` }] and yields the field
    (zero when the body does not mention it). *)
Class Runtime (World : Type) := {
  stripScheme : string → string;
  request_error : string → string → option error;
  transport : Request → World → result Response * World;
  json_user_id : string → result Z
}.

(** ** Header derivation *)

Section Headers.

Context {Extra : Type}.

(** Modelled from the spec: [getAuthHeaders] is a method of the SDK that the
    patch calls but does not contain.  Section 4.2: a non-empty bearer token
    gives [Authorization: Bearer <token>], else a non-empty opaque token
    gives [apitoken: <token>], else the header set is empty. *)
Definition getAuthHeaders (config : Config Extra) : gmap string string :=
  if bool_decide (AccessToken config ≠ "") then
    {[ "Authorization" := "Bearer " +:+ AccessToken config ]}
  else if bool_decide (APIToken config ≠ "") then
    {[ "apitoken" := APIToken config ]}
  else ∅.

(** The bearer fallback built by [getMeIdentity] from [c.config.APIToken]. *)
Definition fallbackHeaders (config : Config Extra) : gmap string string :=
  {[ "Authorization" := "Bearer " +:+ APIToken config ]}.

(** [attempts := []headerSet{c.getAuthHeaders()}] followed by the
    conditional [append]. *)
Definition attempts (config : Config Extra) : list (gmap string string) :=
  let attempts := [getAuthHeaders config] in
  if bool_decide (APIToken config ≠ "")
  then attempts ++ [fallbackHeaders config]
  else attempts.

End Headers.

(** ** The resolver ([fix_getme.py]) *)

Section Resolver.

Context {Extra World : Type} `{!Runtime World}.

(** Computations that talk to the world: they thread the world and emit the
    exchanges they performed. *)
Definition M (A : Type) : Type := World → A * World * list Exchange.

Definition ret {A} (a : A) : M A := λ w, (a, w, []).

Definition bind {A B} (m : M A) (k : A → M B) : M B :=
  λ w, let '(a, w1, t1) := m w in
       let '(b, w2, t2) := k a w1 in
       (b, w2, t1 ++ t2).

Notation "x ←← m ;; k" := (bind m (λ x, k))
  (at level 100, m at next level, right associativity, only parsing).

Definition outcome {A} (r : A * World * list Exchange) : A := r.1.1.
Definition wire {A} (r : A * World * list Exchange) : list Exchange := r.2.

(** [http.NewRequestWithContext(ctx, method, url, nil)]. *)
Definition http_NewRequestWithContext (method url : string) : result Request :=
  match request_error method url with
  | Some err => Err err
  | None => Ok (mkRequest method url ∅)
  end.

(** [c.httpClient.Do(req)]. *)
Definition httpClient_Do (req : Request) : M (result Response) :=
  λ w, let '(r, w') := transport req w in (r, w', [mkExchange req r]).

(** [for k, v := range headers { req.Header.Set(k, v) }]. *)
Definition set_headers (headers : gmap string string) (req : Request) : Request :=
  map_fold Header_Set req headers.

(** [fmt.Sprintf("/me returned status %d: %s", lastStatus, string(lastBody))]. *)
Definition status_message (lastStatus : Z) (lastBody : string) : string :=
  "/me returned status " +:+ pretty lastStatus +:+ ": " +:+ lastBody.

(** How one iteration of the loop ends: with a [return], or by falling
    through to the assignments of [lastStatus] and [lastBody]. *)
Inductive flow : Type :=
| Return (r : result Z)
| Next (lastStatus : Z) (lastBody : string).

(** The part of the loop body that follows [c.httpClient.Do]. *)
Definition handle_reply (r : result Response) : flow :=
  match r with
  | Err err =>
      Return (Err (WrapError "getMeIdentity" err "failed to call /me endpoint"))
  | Ok resp =>
      match io_ReadAll (Body resp) with
      | Err readErr =>
          Return (Err (WrapError "getMeIdentity" readErr
                                 "failed to read /me response"))
      | Ok body =>
          if bool_decide (StatusCode resp = http_StatusOK) then
            match json_user_id body with
            | Err err =>
                Return (Err (WrapError "getMeIdentity" err
                                       "failed to parse /me response"))
            | Ok UserID =>
                if bool_decide (UserID = 0%Z) then
                  Return (Err (WrapError "getMeIdentity" ErrInvalidResponse
                                         "no user_id in /me response"))
                else Return (Ok UserID)
            end
          else Next (StatusCode resp) body
      end
  end.

(** The loop body. *)
Definition attempt (meURL : string) (headers : gmap string string) : M flow :=
  match http_NewRequestWithContext "GET" meURL with
  | Err err =>
      ret (Return (Err (WrapError "getMeIdentity" err
                                  "failed to create /me request")))
  | Ok req =>
      let req := set_headers headers req in
      resp ←← httpClient_Do req ;;
      ret (handle_reply resp)
  end.

(** [for _, headers := range attempts { ... }] and the statement after it. *)
Fixpoint range_attempts (meURL : string) (attempts : list (gmap string string))
    (lastStatus : Z) (lastBody : string) : M (result Z) :=
  match attempts with
  | [] =>
      ret (Err (WrapError "getMeIdentity" ErrAuthenticationFailed
                          (status_message lastStatus lastBody)))
  | headers :: rest =>
      f ←← attempt meURL headers ;;
      match f with
      | Return r => ret r
      | Next lastStatus' lastBody' =>
          range_attempts meURL rest lastStatus' lastBody'
      end
  end.

(** [meURL := fmt.Sprintf("%s://%s/me", scheme, stripScheme(c.config.ServerURL))]. *)
Definition meURL (config : Config Extra) : string :=
  let scheme := "https" in
  let scheme := if negb (SSL config) then "http" else scheme in
  scheme +:+ "://" +:+ stripScheme (ServerURL config) +:+ "/me".

Definition getMeIdentity (config : Config Extra) : M (result Z) :=
  range_attempts (meURL config) (attempts config) 0%Z "".

(** An exchange after which the loop moves on: a response was received, its
    body was read, and its status is not 200. *)
Definition rejected (x : Exchange) : Prop :=
  ∃ status body,
    reply x = Ok (mkResponse status (Ok body)) ∧ status ≠ http_StatusOK.

(** The runs of the loop, told without the world: [loop_run url hs st b t res]
    holds when iterating over the header sets [hs], entered with
    [lastStatus = st] and [lastBody = b], can put the exchanges [t] on the
    wire and end with [res]. *)
Inductive loop_run (url : string) :
    list (gmap string string) → Z → string → list Exchange → result Z → Prop :=
| run_exhausted st b :
    loop_run url [] st b []
      (Err (WrapError "getMeIdentity" ErrAuthenticationFailed
                      (status_message st b)))
| run_no_request h hs st b err :
    request_error "GET" url = Some err →
    loop_run url (h :: hs) st b []
      (Err (WrapError "getMeIdentity" err "failed to create /me request"))
| run_return h hs st b r res :
    request_error "GET" url = None →
    handle_reply r = Return res →
    loop_run url (h :: hs) st b
      [mkExchange (mkRequest "GET" url (canonical_headers h)) r] res
| run_next h hs st b r st' b' t res :
    request_error "GET" url = None →
    handle_reply r = Next st' b' →
    loop_run url hs st' b' t res →
    loop_run url (h :: hs) st b
      (mkExchange (mkRequest "GET" url (canonical_headers h)) r :: t) res.

End Resolver.

(** The messages [getMeIdentity] attaches to the failures of one attempt. *)
Definition attempt_failure_messages : list string :=
  [ "failed to create /me request";
    "failed to call /me endpoint";
    "failed to read /me response";
    "failed to parse /me response";
    "no user_id in /me response" ].

(** ** A scripted runtime for the scenarios of section 8

    The world is the list of replies the server will give, in order; once the
    script is exhausted the connection fails. *)

Definition Script : Type := list (result Response).

Definition play (req : Request) (script : Script) : result Response * Script :=
  match script with
  | [] => (Err (ErrExternal "connection refused"), [])
  | r :: rest => (r, rest)
  end.

(** [strings.TrimPrefix]-like helper: the rest of [s] after [p], if [s]
    starts with [p]. *)
Fixpoint drop_prefix (p s : string) : option string :=
  match p, s with
  | EmptyString, _ => Some s
  | String a p', String b s' =>
      if bool_decide (a = b) then drop_prefix p' s' else None
  | String _ _, EmptyString => None
  end.

(** Modelled from the spec: [stripScheme] is a helper of the SDK that the
    patch calls but does not contain.  Section 4.3: the host is the
    configured server URL with any existing scheme prefix stripped; the two
    schemes the resolver itself produces are recognised. *)
Definition stripScheme_model (url : string) : string :=
  match drop_prefix "https://" url with
  | Some host => host
  | None => default url (drop_prefix "http://" url)
  end.

Definition dquote : string := String (ascii_of_nat 34) EmptyString.

(** The body [{"user_id": n}], as the identity endpoint writes it. *)
Definition user_id_body (n : Z) : string :=
  "{" +:+ dquote +:+ "user_id" +:+ dquote +:+ ": " +:+ pretty n +:+ "}".

Definition digit_value (a : ascii) : option Z :=
  let n := Z.of_nat (nat_of_ascii a) in
  if bool_decide (48 ≤ n ≤ 57)%Z then Some (n - 48)%Z else None.

(** Reads decimal digits up to the closing brace. *)
Fixpoint read_decimal (acc : Z) (s : string) : option Z :=
  match s with
  | EmptyString => None
  | String a rest =>
      match digit_value a with
      | Some d =>
          match rest with
          | String "}"%char EmptyString => Some (10 * acc + d)%Z
          | _ => read_decimal (10 * acc + d)%Z rest
          end
      | None => None
      end
  end.

(** A decoder for the two body shapes the scenarios use, [{}] and
    [{"user_id": n}]; every other body is a syntax error.  It stands in for
    [json.Unmarshal] into [struct { UserID int }]. *)
Definition decode_user_id (body : string) : result Z :=
  if bool_decide (body = "{}") then Ok 0%Z
  else
    match drop_prefix ("{" +:+ dquote +:+ "user_id" +:+ dquote +:+ ": ") body with
    | Some (String "-"%char digits) =>
        from_option (λ n, Ok (- n)%Z)
                    (Err (ErrExternal "json: cannot unmarshal"))
                    (read_decimal 0 digits)
    | Some digits =>
        from_option Ok (Err (ErrExternal "json: cannot unmarshal"))
                    (read_decimal 0 digits)
    | None => Err (ErrExternal "json: cannot unmarshal")
    end.

#[export] Instance scripted : Runtime Script := {|
  stripScheme := stripScheme_model;
  request_error := λ _ url,
    if bool_decide (url = "") then Some (ErrExternal "empty url") else None;
  transport := play;
  json_user_id := decode_user_id
|}.

(** Sample configurations. *)
Definition opaque_config : Config unit :=
  mkConfig "mythic.example.com" true "a1b2c3" "" ().

Definition jwt_config : Config unit :=
  mkConfig "https://mythic.example.com:7443" true "eyJhbGciOi.e30.sig" "" ().

Definition dual_config : Config unit :=
  mkConfig "mythic.example.com" false "a1b2c3" "eyJhbGciOi.e30.sig" ().

Definition answer (status : Z) (body : string) : result Response :=
  Ok (mkResponse status (Ok body)).

Definition primary_accepted : Script :=
  [answer 200 (user_id_body 42); answer 200 (user_id_body 9)].

Definition fallback_accepted : Script :=
  [answer 401 "unauthorized"; answer 200 (user_id_body 7)].

Definition zero_user_id : Script :=
  [answer 200 (user_id_body 0); answer 200 (user_id_body 42)].

Definition negative_user_id : Script :=
  [answer 200 (user_id_body (-5)); answer 200 (user_id_body 42)].

Definition both_rejected : Script :=
  [answer 401 "unauthorized"; answer 403 "forbidden"].

Definition connection_reset : Script :=
  [Err (ErrExternal "connection reset"); answer 200 (user_id_body 42)].

Definition truncated_body : Script :=
  [Ok (mkResponse 401 (Err (ErrExternal "unexpected EOF")));
   answer 200 (user_id_body 42)].

Definition malformed_body : Script :=
  [answer 200 "<html>"; answer 200 (user_id_body 42)].

(** * The patch scripts

    [fix_client.py] and [fix_getme.py] read a Go source file, rewrite its
    text in memory and write it back.  The text Python reads from a file, or
    writes to it, is modelled by its UTF-8 encoding, one [ascii] per byte:
    searching, slicing at a found position and replacing give the same text
    whether they are done on the characters or on their encoding.  The only
    place where the scripts count characters is a progress message, for
    which [py_len] counts code points. *)

Definition tab : string := String (ascii_of_nat 9) EmptyString.
Definition newline : string := String (ascii_of_nat 10) EmptyString.
Definition quoted (s : string) : string := dquote +:+ s +:+ dquote.

Fixpoint unlines (ls : list string) : string :=
  match ls with
  | [] => ""
  | [l] => l
  | l :: rest => l +:+ newline +:+ unlines rest
  end.

Definition text (s : string) : list ascii := String.list_ascii_of_string s.

(** ** The operations of Python's [str] that the scripts use *)

(** [s.find(sub)]: the lowest index at which [sub] occurs in [s]; [None]
    stands for the result [-1]. *)
Fixpoint py_find (sub s : list ascii) : option nat :=
  if decide (sub `prefix_of` s) then Some 0
  else match s with
       | [] => None
       | _ :: s' => S <$> py_find sub s'
       end.

(** [s.find(sub, start)] for a non-negative [start]. *)
Definition py_find_from (sub s : list ascii) (start : nat) : option nat :=
  if decide (start ≤ length s)
  then (λ i, start + i) <$> py_find sub (drop start s)
  else None.

(** [sub in s]. *)
Definition py_in (sub s : list ascii) : bool :=
  bool_decide (is_Some (py_find sub s)).

(** [s[a:b]] for [0 <= a <= b]. *)
Definition py_slice (s : list ascii) (a b : nat) : list ascii :=
  take (b - a) (drop a s).

(** A byte of the form [10xxxxxx] continues a character. *)
Definition is_continuation (a : ascii) : bool :=
  bool_decide (128 ≤ nat_of_ascii a < 192).

(** [len(s)]: the number of characters. *)
Definition py_len (s : list ascii) : nat :=
  length (filter (λ a, is_continuation a = false) s).

(** The scan of [s.replace(old, new)] for a non-empty [old]: [skip] is the
    number of bytes still to pass over after a match. *)
Fixpoint replace_scan (old new : list ascii) (skip : nat) (s : list ascii)
    : list ascii :=
  match s with
  | [] => []
  | c :: s' =>
      match skip with
      | S k => replace_scan old new k s'
      | O =>
          if decide (old `prefix_of` s)
          then new ++ replace_scan old new (length old - 1) s'
          else c :: replace_scan old new 0 s'
      end
  end.

(** With an empty [old], Python puts [new] before every character and at
    the end. *)
Fixpoint replace_empty (new s : list ascii) : list ascii :=
  match s with
  | [] => new
  | c :: s' => new ++ c :: replace_empty new s'
  end.

(** [s.replace(old, new)]: every occurrence of [old], found from left to
    right without overlaps, becomes [new]. *)
Definition py_replace (old new s : list ascii) : list ascii :=
  match old with
  | [] => replace_empty new s
  | _ :: _ => replace_scan old new 0 s
  end.

(** [sub] occurs in [s], at index [i]. *)
Definition occurs_at (sub s : list ascii) (i : nat) : Prop :=
  ∃ pre post, s = pre ++ sub ++ post ∧ length pre = i.

Definition occurs (sub s : list ascii) : Prop :=
  ∃ pre post, s = pre ++ sub ++ post.

(** One of [a] and [b] is a prefix of the other. *)
Definition comparable (a b : list ascii) : bool :=
  bool_decide (a `prefix_of` b) || bool_decide (b `prefix_of` a).

(** No occurrence of [a] can share a position with an occurrence of [b]:
    no end of one is comparable with the other. *)
Definition no_overlap (a b : list ascii) : bool :=
  forallb (λ k, negb (comparable (drop k a) b)) (seq 0 (length a))
  && forallb (λ j, negb (comparable (drop j b) a)) (seq 0 (length b)).

(** A scan that checks that [sub] occurs in [s] at index [i] at most. *)
Definition only_at (sub s : list ascii) (i : nat) : bool :=
  forallb (λ j, bool_decide (j = i)
                || negb (bool_decide (sub `prefix_of` drop j s)))
          (seq 0 (S (length s))).

(** What a run of a script leaves behind: its exit status, the lines it
    printed, and the text of the file it was to patch (the text written, or
    the text read when the script exits before writing). *)
Record Run := mkRun {
  exit_code : Z;
  stdout : list string;
  file : list ascii
}.

(** ** [fix_client.py] *)

(** [old_imports]: the import block of [client.go] before the patch. *)
Definition old_imports : list ascii := text (unlines [
    "import (";
    tab +:+ quoted "bytes";
    tab +:+ quoted "context";
    tab +:+ quoted "crypto/tls";
    tab +:+ quoted "encoding/json";
    tab +:+ quoted "fmt";
    tab +:+ quoted "io";
    tab +:+ quoted "net/http";
    tab +:+ quoted "net/http/cookiejar";
    tab +:+ quoted "sync";
    "";
    tab +:+ quoted "github.com/hasura/go-graphql-client";
    ")" ]).

(** [new_imports]: the import block with [strings] added. *)
Definition new_imports : list ascii := text (unlines [
    "import (";
    tab +:+ quoted "bytes";
    tab +:+ quoted "context";
    tab +:+ quoted "crypto/tls";
    tab +:+ quoted "encoding/json";
    tab +:+ quoted "fmt";
    tab +:+ quoted "io";
    tab +:+ quoted "net/http";
    tab +:+ quoted "net/http/cookiejar";
    tab +:+ quoted "strings";
    tab +:+ quoted "sync";
    "";
    tab +:+ quoted "github.com/hasura/go-graphql-client";
    ")" ]).

(** [old_section]: the lines of [NewClient] between which the JWT detection
    is inserted. *)
Definition old_section : list ascii := text (unlines [
    tab +:+ "if err := config.Validate(); err != nil {";
    tab +:+ tab +:+ "return nil, WrapError(" +:+ quoted "NewClient" +:+
      ", err, " +:+ quoted "invalid configuration" +:+ ")";
    tab +:+ "}";
    "";
    tab +:+ "// Create cookie jar for session management" ]).

(** [new_section]: the same lines with the JWT detection block in between. *)
Definition new_section : list ascii := text (unlines [
    tab +:+ "if err := config.Validate(); err != nil {";
    tab +:+ tab +:+ "return nil, WrapError(" +:+ quoted "NewClient" +:+
      ", err, " +:+ quoted "invalid configuration" +:+ ")";
    tab +:+ "}";
    "";
    tab +:+ "// Detect if the APIToken is actually a JWT (starts with " +:+
      dquote +:+ "eyJ" +:+ dquote +:+ " — the";
    tab +:+ "// base64 encoding of '{" +:+ dquote +:+
      "'). JWTs must be sent via " +:+ dquote +:+ "Authorization:";
    tab +:+ "// Bearer" +:+ dquote +:+ " header, not the " +:+ dquote +:+
      "apitoken" +:+ dquote +:+ " header which is reserved for";
    tab +:+ "// Mythic's long-lived API tokens stored in the database.";
    tab +:+ "if config.APIToken != " +:+ quoted "" +:+
      " && strings.HasPrefix(config.APIToken, " +:+ quoted "eyJ" +:+ ") {";
    tab +:+ tab +:+ "config.AccessToken = config.APIToken";
    tab +:+ tab +:+ "config.APIToken = " +:+ quoted "";
    tab +:+ "}";
    "";
    tab +:+ "// Create cookie jar for session management" ]).

(** The script, applied to the content of [pkg/mythic/client.go]. *)
Definition fix_client (content : list ascii) : Run :=
  if negb (py_in old_imports content) then
    mkRun 1 ["ERROR: Could not find imports block"] content
  else
    let content1 := py_replace old_imports new_imports content in
    if negb (py_in old_section content1) then
      mkRun 1 ["ERROR: Could not find config.Validate section"] content
    else
      let content2 := py_replace old_section new_section content1 in
      mkRun 0 ["OK: NewClient now detects JWT-as-APIToken and reclassifies it"]
            content2.

(** ** [fix_getme.py] *)

(** [start_marker]: the doc comment and signature that open the old
    [getMeIdentity]. *)
Definition start_marker : list ascii := text (unlines [
    "// getMeIdentity calls the /me REST endpoint to extract the user_id from";
    "// the current JWT or API token claims.";
    "func (c *Client) getMeIdentity(ctx context.Context) (int, error) {" ]).

(** [end_marker]: the last statement and the closing brace of the old
    [getMeIdentity]. *)
Definition end_marker : list ascii := text (unlines [
    tab +:+ "return meResp.UserID, nil";
    "}" ]).

(** [new_func]: the text of the new [getMeIdentity]. *)
Definition new_func : list ascii := text (unlines [
    "// getMeIdentity calls the /me REST endpoint to extract the user_id from";
    "// the current JWT or API token claims.";
    "//";
    "// The /me endpoint accepts both " +:+ dquote +:+ "apitoken: <token>" +:+
      dquote +:+ " (for real Mythic API";
    "// tokens) and " +:+ dquote +:+ "Authorization: Bearer <jwt>" +:+
      dquote +:+ " headers. When the caller has";
    "// set APIToken in the config this might actually be a JWT (e.g. passed via";
    "// MYTHIC_API_TOKEN env var), so if the first attempt returns 401 we retry";
    "// with Authorization: Bearer as a fallback.";
    "func (c *Client) getMeIdentity(ctx context.Context) (int, error) {";
    tab +:+ "scheme := " +:+ quoted "https";
    tab +:+ "if !c.config.SSL {";
    tab +:+ tab +:+ "scheme = " +:+ quoted "http";
    tab +:+ "}";
    tab +:+ "meURL := fmt.Sprintf(" +:+ quoted "%s://%s/me" +:+
      ", scheme, stripScheme(c.config.ServerURL))";
    "";
    tab +:+ "// Build the list of header sets to try.";
    tab +:+
      "// Primary: whatever getAuthHeaders() returns (apitoken or Bearer).";
    tab +:+
      "// Fallback: if APIToken is set and first attempt gets 401, try the";
    tab +:+
      "// token as a Bearer JWT in case the caller supplied a JWT instead of";
    tab +:+ "// a real Mythic API token.";
    tab +:+ "type headerSet = map[string]string";
    tab +:+ "attempts := []headerSet{c.getAuthHeaders()}";
    tab +:+ "if c.config.APIToken != " +:+ quoted "" +:+ " {";
    tab +:+ tab +:+ "attempts = append(attempts, headerSet{";
    tab +:+ tab +:+ tab +:+ quoted "Authorization" +:+ ": " +:+
      quoted "Bearer " +:+ " + c.config.APIToken,";
    tab +:+ tab +:+ "})";
    tab +:+ "}";
    "";
    tab +:+ "var lastStatus int";
    tab +:+ "var lastBody []byte";
    "";
    tab +:+ "for _, headers := range attempts {";
    tab +:+ tab +:+ "req, err := http.NewRequestWithContext(ctx, " +:+
      quoted "GET" +:+ ", meURL, nil)";
    tab +:+ tab +:+ "if err != nil {";
    tab +:+ tab +:+ tab +:+ "return 0, WrapError(" +:+
      quoted "getMeIdentity" +:+ ", err, " +:+
      quoted "failed to create /me request" +:+ ")";
    tab +:+ tab +:+ "}";
    tab +:+ tab +:+ "for k, v := range headers {";
    tab +:+ tab +:+ tab +:+ "req.Header.Set(k, v)";
    tab +:+ tab +:+ "}";
    "";
    tab +:+ tab +:+ "resp, err := c.httpClient.Do(req)";
    tab +:+ tab +:+ "if err != nil {";
    tab +:+ tab +:+ tab +:+ "return 0, WrapError(" +:+
      quoted "getMeIdentity" +:+ ", err, " +:+
      quoted "failed to call /me endpoint" +:+ ")";
    tab +:+ tab +:+ "}";
    "";
    tab +:+ tab +:+ "body, readErr := io.ReadAll(resp.Body)";
    tab +:+ tab +:+ "resp.Body.Close()";
    tab +:+ tab +:+ "if readErr != nil {";
    tab +:+ tab +:+ tab +:+ "return 0, WrapError(" +:+
      quoted "getMeIdentity" +:+ ", readErr, " +:+
      quoted "failed to read /me response" +:+ ")";
    tab +:+ tab +:+ "}";
    "";
    tab +:+ tab +:+ "if resp.StatusCode == http.StatusOK {";
    tab +:+ tab +:+ tab +:+ "var meResp struct {";
    tab +:+ tab +:+ tab +:+ tab +:+ "UserID int `json:" +:+ quoted "user_id" +:+
      "`";
    tab +:+ tab +:+ tab +:+ "}";
    tab +:+ tab +:+ tab +:+
      "if err := json.Unmarshal(body, &meResp); err != nil {";
    tab +:+ tab +:+ tab +:+ tab +:+ "return 0, WrapError(" +:+
      quoted "getMeIdentity" +:+ ", err, " +:+
      quoted "failed to parse /me response" +:+ ")";
    tab +:+ tab +:+ tab +:+ "}";
    tab +:+ tab +:+ tab +:+ "if meResp.UserID == 0 {";
    tab +:+ tab +:+ tab +:+ tab +:+ "return 0, WrapError(" +:+
      quoted "getMeIdentity" +:+ ", ErrInvalidResponse, " +:+
      quoted "no user_id in /me response" +:+ ")";
    tab +:+ tab +:+ tab +:+ "}";
    tab +:+ tab +:+ tab +:+ "return meResp.UserID, nil";
    tab +:+ tab +:+ "}";
    "";
    tab +:+ tab +:+ "lastStatus = resp.StatusCode";
    tab +:+ tab +:+ "lastBody = body";
    tab +:+ "}";
    "";
    tab +:+ "return 0, WrapError(" +:+ quoted "getMeIdentity" +:+
      ", ErrAuthenticationFailed,";
    tab +:+ tab +:+ "fmt.Sprintf(" +:+ quoted "/me returned status %d: %s" +:+
      ", lastStatus, string(lastBody)))";
    "}" ]).

(** The script, applied to the content of [pkg/mythic/auth.go]. *)
Definition fix_getme (content : list ascii) : Run :=
  match py_find start_marker content with
  | None => mkRun 1 ["ERROR: Could not find start of getMeIdentity"] content
  | Some start_idx =>
      let search_from := start_idx + length start_marker in
      match py_find_from end_marker content search_from with
      | None => mkRun 1 ["ERROR: Could not find end of getMeIdentity"] content
      | Some end_idx =>
          let end_idx := end_idx + length end_marker in
          let old_func := py_slice content start_idx end_idx in
          mkRun 0
            [ "Found function (" +:+ pretty (py_len old_func) +:+ " chars)";
              "OK: getMeIdentity updated with Bearer fallback" ]
            (take start_idx content ++ new_func ++ drop end_idx content)
      end
  end.

(** Sample files for the scripts. *)
Definition sample_client_go : list ascii :=
  text "package mythic" ++ text newline ++ text newline
  ++ old_imports ++ text newline ++ text newline
  ++ text "func NewClient(config *Config) (*Client, error) {" ++ text newline
  ++ old_section ++ text newline ++ text "}" ++ text newline.

Definition sample_auth_go : list ascii :=
  text "package mythic" ++ text newline ++ text newline
  ++ start_marker ++ text newline
  ++ text "var meResp struct{ UserID int }" ++ text newline
  ++ end_marker ++ text newline ++ text newline
  ++ text "func stripScheme(u string) string { return u }" ++ text newline.

(** * Properties *)

(** ** The classifier *)

Section ClassifierFacts.

Context {Extra : Type}.
Implicit Types (config : Config Extra) (s t : string).

Lemma HasPrefix_spec s p :
  strings_HasPrefix s p = true ↔ ∃ t, s = p +:+ t.
Proof.
  unfold strings_HasPrefix. revert s.
  induction p as [|a p IH]; intros [|b s]; simpl.
  - split; [by exists "" | done].
  - split; [by exists (String b s) | done].
  - split; [done | intros [t Ht]; discriminate].
  - destruct (Ascii.ascii_dec a b) as [->|Hab].
    + rewrite IH. split; intros [t Ht]; exists t.
      * by rewrite Ht.
      * by injection Ht.
    + split; [done | intros [t Ht]; injection Ht; congruence].
Qed.

Lemma is_jwt_token_spec s :
  is_jwt_token s = true ↔ s ≠ "" ∧ ∃ t, s = "eyJ" +:+ t.
Proof.
  unfold is_jwt_token.
  rewrite andb_true_iff, negb_true_iff, bool_decide_eq_false, HasPrefix_spec.
  done.
Qed.

Lemma reclassify_fields config :
  reclassify config =
    mkConfig (ServerURL config) (SSL config) "" (APIToken config)
             (OtherFields config).
Proof. reflexivity. Qed.

Lemma normalize_jwt config :
  is_jwt_token (APIToken config) = true →
  normalize config =
    mkConfig (ServerURL config) (SSL config) "" (APIToken config)
             (OtherFields config).
Proof. intros Hjwt. unfold normalize. by rewrite Hjwt. Qed.

Lemma normalize_other config :
  is_jwt_token (APIToken config) = false → normalize config = config.
Proof. intros Hjwt. unfold normalize. by rewrite Hjwt. Qed.

(** C1: normalization moves the opaque token into the bearer field and
    clears the opaque field exactly when the token is non-empty and starts
    with the three characters [eyJ]; in every other case the configuration
    is returned as it was.  For a non-empty token, the opaque field ends up
    cleared if and only if the token has that prefix. *)
Theorem normalize_moves_iff_jwt config :
  let s := APIToken config in
  let jwt_shaped := s ≠ "" ∧ ∃ t, s = "eyJ" +:+ t in
  (jwt_shaped →
     normalize config =
       mkConfig (ServerURL config) (SSL config) "" s (OtherFields config))
  ∧ (¬ jwt_shaped → normalize config = config)
  ∧ (normalize config ≠ config → jwt_shaped)
  ∧ (s ≠ "" →
       (AccessToken (normalize config) = s ∧ APIToken (normalize config) = "")
       ↔ ∃ t, s = "eyJ" +:+ t).
Proof.
  intros s jwt_shaped. subst s jwt_shaped.
  destruct (is_jwt_token (APIToken config)) eqn:Hjwt.
  - pose proof (proj1 (is_jwt_token_spec _) Hjwt) as Hshape.
    rewrite (normalize_jwt _ Hjwt). simpl.
    split_and!; [done | done | done |].
    intros _. split; [intros _; apply Hshape | done].
  - assert (¬ (APIToken config ≠ "" ∧ ∃ t, APIToken config = "eyJ" +:+ t))
      as Hshape.
    { rewrite <- is_jwt_token_spec. by rewrite Hjwt. }
    rewrite (normalize_other _ Hjwt).
    split_and!; [done | done | done |].
    intros Hne. split; [intros [_ Hclear]; done | intros Hpre; tauto].
Qed.

(** C7: normalization is idempotent; once the opaque field is cleared the
    guard cannot fire again. *)
Theorem normalize_idempotent config :
  normalize (normalize config) = normalize config.
Proof.
  destruct (is_jwt_token (APIToken config)) eqn:Hjwt.
  - rewrite (normalize_jwt _ Hjwt). by apply normalize_other.
  - rewrite (normalize_other _ Hjwt). by apply normalize_other.
Qed.

End ClassifierFacts.

(** ** Header derivation *)

Section HeaderFacts.

Context {Extra : Type}.
Implicit Types (config : Config Extra).

Lemma attempts_with_token config :
  APIToken config ≠ "" →
  attempts config = [getAuthHeaders config; fallbackHeaders config].
Proof. intros Hne. unfold attempts. by rewrite bool_decide_eq_true_2. Qed.

Lemma attempts_without_token config :
  APIToken config = "" → attempts config = [getAuthHeaders config].
Proof.
  intros Hemp. unfold attempts. rewrite bool_decide_eq_false_2; [done|].
  by intros Hne.
Qed.

Lemma getAuthHeaders_bearer config :
  AccessToken config ≠ "" →
  getAuthHeaders config =
    {[ "Authorization" := "Bearer " +:+ AccessToken config ]}.
Proof. intros Hne. unfold getAuthHeaders. by rewrite bool_decide_eq_true_2. Qed.

Lemma getAuthHeaders_apitoken config :
  AccessToken config = "" → APIToken config ≠ "" →
  getAuthHeaders config = {[ "apitoken" := APIToken config ]}.
Proof.
  intros Hemp Hne. unfold getAuthHeaders.
  rewrite bool_decide_eq_false_2 by (by intros ?).
  by rewrite bool_decide_eq_true_2.
Qed.

Lemma bearer_header_inj (t1 t2 : string) :
  ({[ "Authorization" := "Bearer " +:+ t1 ]} : gmap string string)
    = {[ "Authorization" := "Bearer " +:+ t2 ]} →
  t1 = t2.
Proof.
  intros Heq. apply (inj (String.app "Bearer ")).
  assert (({[ "Authorization" := "Bearer " +:+ t1 ]} : gmap string string)
            !! "Authorization" = Some ("Bearer " +:+ t2)) as Hlook.
  { rewrite Heq. apply lookup_singleton_eq. }
  rewrite lookup_singleton_eq in Hlook. congruence.
Qed.

(** C2: the attempt list holds a second, fallback entry exactly when the
    opaque token is non-empty; that entry is the single header
    [Authorization: Bearer <opaque token>]; and when the primary scheme is
    the [apitoken] one, both entries carry the same token. *)
Theorem fallback_iff_api_token config :
  (is_Some (attempts config !! 1) ↔ APIToken config ≠ "")
  ∧ (∀ fb, attempts config !! 1 = Some fb →
       fb = {[ "Authorization" := "Bearer " +:+ APIToken config ]})
  ∧ attempts config !! 0 = Some (getAuthHeaders config)
  ∧ length (attempts config) ≤ 2
  ∧ (APIToken config ≠ "" → AccessToken config = "" →
       attempts config =
         [ {[ "apitoken" := APIToken config ]};
           {[ "Authorization" := "Bearer " +:+ APIToken config ]} ]).
Proof.
  destruct (decide (APIToken config = "")) as [Hemp|Hne].
  - rewrite (attempts_without_token _ Hemp). simpl.
    split_and!; [| done | done | lia | done].
    split; [by intros [? ?] | done].
  - rewrite (attempts_with_token _ Hne). simpl.
    split_and!; [| | done | lia |].
    + split; [done | by eexists].
    + intros fb [= <-]. done.
    + intros _ Hemp. by rewrite (getAuthHeaders_apitoken _ Hemp Hne).
Qed.

End HeaderFacts.

(** ** The resolver *)

Section ResolverFacts.

Context {Extra World : Type} `{!Runtime World}.
Implicit Types (config : Config Extra) (w : World) (x y : Exchange).
Implicit Types (hs : list (gmap string string)) (t : list Exchange).
Implicit Types (res : result Z) (st : Z) (b url : string).

Lemma set_headers_fresh method url headers :
  set_headers headers (mkRequest method url ∅) =
    mkRequest method url (canonical_headers headers).
Proof.
  unfold set_headers, canonical_headers. rewrite !map_fold_foldr.
  induction (map_to_list headers) as [|[k v] l IH]; [done|].
  simpl. by rewrite IH.
Qed.

Lemma canonical_headers_empty : canonical_headers ∅ = ∅.
Proof. apply map_fold_empty. Qed.

Lemma canonical_headers_singleton k v :
  canonical_headers {[ k := v ]} = {[ CanonicalMIMEHeaderKey k := v ]}.
Proof.
  unfold canonical_headers. rewrite map_fold_singleton. apply insert_empty.
Qed.

(** [Authorization] is already canonical; [apitoken] is sent as
    [Apitoken]. *)
Lemma canonical_headers_bearer v :
  canonical_headers {[ "Authorization" := v ]} = {[ "Authorization" := v ]}.
Proof. apply canonical_headers_singleton. Qed.

Lemma canonical_headers_apitoken v :
  canonical_headers {[ "apitoken" := v ]} = {[ "Apitoken" := v ]}.
Proof. apply canonical_headers_singleton. Qed.

Lemma handle_reply_Next r st b :
  handle_reply r = Next st b ↔
  r = Ok (mkResponse st (Ok b)) ∧ st ≠ http_StatusOK.
Proof.
  unfold handle_reply, io_ReadAll.
  destruct r as [[status [body|err]]|err]; simpl;
    [case_bool_decide as Hst | |]; try (split; [done | by intros [? ?]]).
  - split; [|intros [[= -> ->] ?]; done].
    by destruct (json_user_id body) as [uid|?]; [case_bool_decide|].
  - split; [by intros [= -> ->] | by intros [[= -> ->] _]].
Qed.

Lemma rejected_Next x :
  rejected x ↔ ∃ st b, handle_reply (reply x) = Next st b.
Proof.
  unfold rejected. by setoid_rewrite handle_reply_Next.
Qed.

Lemma rejected_not_Return x res :
  rejected x → handle_reply (reply x) ≠ Return res.
Proof. intros (st & b & Hnext)%rejected_Next. congruence. Qed.

(** The function and the relation agree: every execution of the loop is one
    of the runs described by [loop_run]. *)
Lemma range_attempts_run url hs st b w :
  loop_run url hs st b (wire (range_attempts url hs st b w))
                       (outcome (range_attempts url hs st b w)).
Proof.
  revert st b w. induction hs as [|h hs IH]; intros st b w.
  - apply run_exhausted.
  - cbn [range_attempts]. unfold bind, attempt, http_NewRequestWithContext.
    destruct (request_error "GET" url) as [err|] eqn:Hreq.
    + by apply run_no_request.
    + unfold bind, httpClient_Do, ret. rewrite set_headers_fresh.
      destruct (transport (mkRequest "GET" url (canonical_headers h)) w)
        as [r w1]. simpl.
      destruct (handle_reply r) as [res|st' b'] eqn:Hr.
      * by apply run_return.
      * specialize (IH st' b' w1).
        destruct (range_attempts url hs st' b' w1) as [[res w2] t].
        by eapply run_next.
Qed.

Lemma getMeIdentity_run config w :
  loop_run (meURL config) (attempts config) 0 ""
           (wire (getMeIdentity config w)) (outcome (getMeIdentity config w)).
Proof. apply range_attempts_run. Qed.

(** An exchange that is followed by another one was a rejection. *)
Lemma run_prefix_rejected url hs st b t res k x :
  loop_run url hs st b t res →
  t !! k = Some x → S k < length t → rejected x.
Proof.
  intros Hrun. revert k.
  induction Hrun as [| | |h hs st b r st' b' t res Hreq Hr Hrun IH];
    intros k Hk Hlen; simpl in *; try (destruct k; simplify_eq/=; lia).
  destruct k as [|k]; simplify_eq/=.
  - apply rejected_Next. by exists st', b'.
  - apply (IH k); [done | lia].
Qed.

(** An exchange on which the loop body returns is the last one, and the
    value returned there is the result of the run. *)
Lemma run_return_last url hs st b t res k x res' :
  loop_run url hs st b t res →
  t !! k = Some x → handle_reply (reply x) = Return res' →
  res = res' ∧ length t = S k.
Proof.
  intros Hrun. revert k.
  induction Hrun as [| |h hs st b r res Hreq Hr
                     |h hs st b r st' b' t res Hreq Hr Hrun IH];
    intros k Hk Hret; simpl in *; try done.
  - destruct k; simplify_eq/=. split; [congruence | done].
  - destruct k as [|k]; simplify_eq/=; [congruence|].
    destruct (IH k) as [-> ->]; done.
Qed.

(** The k-th exchange is a GET to the URL of the run, carrying the k-th
    header set of the attempt list. *)
Lemma run_sent url hs st b t res k x :
  loop_run url hs st b t res →
  t !! k = Some x →
  ∃ h, hs !! k = Some h
       ∧ sent x = mkRequest "GET" url (canonical_headers h).
Proof.
  intros Hrun. revert k.
  induction Hrun as [| |h hs st b r res Hreq Hr
                     |h hs st b r st' b' t res Hreq Hr Hrun IH];
    intros k Hk; simpl in *; try done.
  - destruct k; simplify_eq/=. by exists h.
  - destruct k as [|k]; simplify_eq/=; [by exists h | by apply IH].
Qed.

(** When no request can be built, nothing reaches the wire. *)
Lemma run_no_request_inv url h hs st b t res err :
  loop_run url (h :: hs) st b t res →
  request_error "GET" url = Some err →
  t = [] ∧ res = Err (WrapError "getMeIdentity" err
                                "failed to create /me request").
Proof. intros Hrun Hreq. inversion Hrun; simplify_eq. done. Qed.

(** A run made of rejections only visits every header set and fails with
    the status and body it saw last. *)
Lemma run_all_rejected url hs st b t res :
  loop_run url hs st b t res →
  request_error "GET" url = None →
  Forall rejected t →
  length t = length hs
  ∧ ∃ st' b',
      res = Err (WrapError "getMeIdentity" ErrAuthenticationFailed
                           (status_message st' b'))
      ∧ match last t with
        | Some x => reply x = Ok (mkResponse st' (Ok b'))
        | None => st' = st ∧ b' = b
        end.
Proof.
  intros Hrun Hok.
  induction Hrun as [st b| |h hs st b r res Hreq Hr
                     |h hs st b r st' b' t res Hreq Hr Hrun IH];
    intros Hall.
  - split; [done|]. by exists st, b.
  - congruence.
  - apply Forall_cons in Hall as [Hrej _].
    by destruct (rejected_not_Return _ res Hrej).
  - apply Forall_cons in Hall as [_ Hall].
    destruct (IH Hall) as (Hlen & st'' & b'' & -> & Hlast).
    split; [simpl; by rewrite Hlen|].
    exists st'', b''. split; [done|].
    rewrite last_cons. destruct (last t) as [y|]; [done|].
    destruct Hlast as [-> ->]. simpl. by apply handle_reply_Next in Hr as [-> _].
Qed.

End ResolverFacts.

(** ** Claims about [getMeIdentity] *)

Section ResolverClaims.

Context {Extra World : Type} `{!Runtime World}.
Implicit Types (config : Config Extra) (w : World) (x y : Exchange).
Implicit Types (k j : nat) (body : string) (uid status : Z).

Lemma attempts_cons config :
  ∃ hs, attempts config = getAuthHeaders config :: hs.
Proof. unfold attempts. case_bool_decide; by eexists. Qed.

(** The last header set of the attempt list is sent under the name it was
    built with: it is empty or an [Authorization] header. *)
Lemma last_attempt_canonical config h :
  last (attempts config) = Some h → canonical_headers h = h.
Proof.
  unfold attempts, getAuthHeaders, fallbackHeaders.
  repeat case_bool_decide; simpl; intros [= <-]; try done;
    apply canonical_headers_bearer || apply canonical_headers_empty.
Qed.

Lemma handle_reply_200 body :
  handle_reply (Ok (mkResponse 200 (Ok body))) =
    match json_user_id body with
    | Err err =>
        Return (Err (WrapError "getMeIdentity" err
                               "failed to parse /me response"))
    | Ok uid =>
        if bool_decide (uid = 0%Z) then
          Return (Err (WrapError "getMeIdentity" ErrInvalidResponse
                                 "no user_id in /me response"))
        else Return (Ok uid)
    end.
Proof. reflexivity. Qed.

(** C3: a 200 answer whose decoded [user_id] is zero (which is also what an
    absent field decodes to) ends the resolution at once with the
    invalid-response error: the exchange is the last one on the wire, and
    every exchange before it was answered with a status other than 200. *)
Theorem zero_user_id_is_fatal config w k x body :
  wire (getMeIdentity config w) !! k = Some x →
  reply x = Ok (mkResponse 200 (Ok body)) →
  json_user_id body = Ok 0%Z →
  outcome (getMeIdentity config w) =
    Err (WrapError "getMeIdentity" ErrInvalidResponse
                   "no user_id in /me response")
  ∧ length (wire (getMeIdentity config w)) = S k
  ∧ ∀ j y, wire (getMeIdentity config w) !! j = Some y → j < k → rejected y.
Proof.
  intros Hk Hreply Hjson.
  pose proof (getMeIdentity_run config w) as Hrun.
  pose proof Hrun as Hlast.
  eapply run_return_last in Hlast as [Hres Hlen]; [|done|].
  2: { rewrite Hreply, handle_reply_200, Hjson. reflexivity. }
  split_and!; [done | done |].
  intros j y Hj Hlt. eapply run_prefix_rejected; [done..|lia].
Qed.

(** C6: a 200 answer whose body decodes to a non-zero [user_id] ends the
    resolution at once with that identity; no request follows it. *)
Theorem nonzero_user_id_returned config w k x body uid :
  wire (getMeIdentity config w) !! k = Some x →
  reply x = Ok (mkResponse 200 (Ok body)) →
  json_user_id body = Ok uid →
  uid ≠ 0%Z →
  outcome (getMeIdentity config w) = Ok uid
  ∧ length (wire (getMeIdentity config w)) = S k.
Proof.
  intros Hk Hreply Hjson Huid.
  pose proof (getMeIdentity_run config w) as Hrun.
  eapply run_return_last in Hrun as [-> ->]; [done..|].
  rewrite Hreply, handle_reply_200, Hjson.
  by rewrite bool_decide_eq_false_2.
Qed.

(** C10: among the 200 answers that decode, only [user_id = 0] is refused;
    a negative [user_id] is returned as the identity. *)
Theorem negative_user_id_accepted config w k x body uid :
  wire (getMeIdentity config w) !! k = Some x →
  reply x = Ok (mkResponse 200 (Ok body)) →
  json_user_id body = Ok uid →
  ((uid < 0)%Z → outcome (getMeIdentity config w) = Ok uid)
  ∧ (outcome (getMeIdentity config w) =
       Err (WrapError "getMeIdentity" ErrInvalidResponse
                      "no user_id in /me response")
     ↔ uid = 0%Z).
Proof.
  intros Hk Hreply Hjson.
  pose proof (getMeIdentity_run config w) as Hrun.
  destruct (decide (uid = 0%Z)) as [Huid|Huid].
  - eapply run_return_last in Hrun as [-> _]; [|done|].
    2: { rewrite Hreply, handle_reply_200, Hjson.
         by rewrite bool_decide_eq_true_2. }
    split; [lia | done].
  - eapply run_return_last in Hrun as [-> _]; [|done|].
    2: { rewrite Hreply, handle_reply_200, Hjson.
         by rewrite bool_decide_eq_false_2. }
    split; [done | split; [done | by intros ?]].
Qed.

(** C4: a request that cannot be built, a transport failure and a body that
    cannot be read each end the resolution at once with the wrapped cause;
    only an answer with a status other than 200 is followed by another
    attempt. *)
Theorem transport_failures_are_fatal config w :
  (∀ err, request_error "GET" (meURL config) = Some err →
     outcome (getMeIdentity config w) =
       Err (WrapError "getMeIdentity" err "failed to create /me request")
     ∧ wire (getMeIdentity config w) = [])
  ∧ (∀ k x err,
       wire (getMeIdentity config w) !! k = Some x →
       reply x = Err err →
       outcome (getMeIdentity config w) =
         Err (WrapError "getMeIdentity" err "failed to call /me endpoint")
       ∧ length (wire (getMeIdentity config w)) = S k)
  ∧ (∀ k x status err,
       wire (getMeIdentity config w) !! k = Some x →
       reply x = Ok (mkResponse status (Err err)) →
       outcome (getMeIdentity config w) =
         Err (WrapError "getMeIdentity" err "failed to read /me response")
       ∧ length (wire (getMeIdentity config w)) = S k)
  ∧ (∀ k x,
       wire (getMeIdentity config w) !! k = Some x →
       S k < length (wire (getMeIdentity config w)) →
       rejected x).
Proof.
  pose proof (getMeIdentity_run config w) as Hrun.
  split_and!.
  - intros err Hreq. destruct (attempts_cons config) as [hs Hhs].
    rewrite Hhs in Hrun.
    by destruct (run_no_request_inv _ _ _ _ _ _ _ _ Hrun Hreq) as [-> ->].
  - intros k x err Hk Hreply.
    eapply run_return_last in Hrun as [-> ->]; [done..|].
    by rewrite Hreply.
  - intros k x status err Hk Hreply.
    eapply run_return_last in Hrun as [-> ->]; [done..|].
    by rewrite Hreply.
  - intros k x Hk Hlen. by eapply run_prefix_rejected.
Qed.

(** C5: when every attempt of the list is answered with a status other
    than 200, the resolution fails with the authentication error whose
    message is built from the status and the body of the last exchange on
    the wire, the one made with the last header set of the list, and from
    nothing else. *)
Theorem all_rejected_reports_last config w :
  (∀ k h, attempts config !! k = Some h →
     ∃ x, wire (getMeIdentity config w) !! k = Some x ∧ rejected x) →
  ∃ x status body,
    last (wire (getMeIdentity config w)) = Some x
    ∧ reply x = Ok (mkResponse status (Ok body))
    ∧ last (attempts config) = Some (Header (sent x))
    ∧ length (wire (getMeIdentity config w)) = length (attempts config)
    ∧ outcome (getMeIdentity config w) =
        Err (WrapError "getMeIdentity" ErrAuthenticationFailed
               ("/me returned status " +:+ pretty status +:+ ": " +:+ body)).
Proof.
  intros Hall.
  pose proof (getMeIdentity_run config w) as Hrun.
  destruct (attempts_cons config) as [hs Hhs].
  destruct (Hall 0 (getAuthHeaders config)) as (x0 & Hx0 & _).
  { by rewrite Hhs. }
  assert (request_error "GET" (meURL config) = None) as Hreq.
  { destruct (request_error "GET" (meURL config)) as [err|] eqn:Hreq; [|done].
    rewrite Hhs in Hrun.
    destruct (run_no_request_inv _ _ _ _ _ _ _ _ Hrun Hreq) as [Hnil _].
    by rewrite Hnil in Hx0. }
  assert (Forall rejected (wire (getMeIdentity config w))) as Hrej.
  { apply Forall_lookup. intros i x Hi.
    destruct (run_sent _ _ _ _ _ _ _ _ Hrun Hi) as (h & Hh & _).
    destruct (Hall i h Hh) as (x' & Hx' & Hrej). congruence. }
  destruct (run_all_rejected _ _ _ _ _ _ Hrun Hreq Hrej)
    as (Hlen & status & body & Hres & Hlast).
  destruct (last (wire (getMeIdentity config w))) as [x|] eqn:Hx.
  2: { apply last_None in Hx. by rewrite Hx in Hx0. }
  exists x, status, body. split_and!; [done | done | | done | done].
  rewrite last_lookup in Hx.
  destruct (run_sent _ _ _ _ _ _ _ _ Hrun Hx) as (h & Hh & ->).
  assert (last (attempts config) = Some h) as Hlasth
    by (by rewrite last_lookup, <- Hlen).
  simpl. by rewrite (last_attempt_canonical _ _ Hlasth).
Qed.

(** C8: every request of a resolution is a GET to the same address,
    [https://<host>/me] when the TLS flag is set and [http://<host>/me]
    otherwise, where [<host>] is [stripScheme] applied to the configured
    server URL. *)
Theorem identity_endpoint_url config w k x :
  wire (getMeIdentity config w) !! k = Some x →
  URL (sent x) =
    (if SSL config then "https://" else "http://")
      +:+ stripScheme (ServerURL config) +:+ "/me"
  ∧ Method (sent x) = "GET".
Proof.
  intros Hk.
  destruct (run_sent _ _ _ _ _ _ _ _ (getMeIdentity_run config w) Hk)
    as (h & _ & ->).
  split; [|done]. unfold meURL. by destruct (SSL config).
Qed.

End ResolverClaims.

(** ** The scenarios of section 8, run on the scripted runtime *)

Lemma zero_user_id_is_fatal_witness :
  outcome (getMeIdentity opaque_config zero_user_id) =
    Err (WrapError "getMeIdentity" ErrInvalidResponse
                   "no user_id in /me response")
  ∧ length (wire (getMeIdentity opaque_config zero_user_id)) = 1
  ∧ length (attempts opaque_config) = 2.
Proof.
  destruct (zero_user_id_is_fatal opaque_config zero_user_id 0
              (mkExchange
                 (mkRequest "GET" "https://mythic.example.com/me"
                            {[ "Apitoken" := "a1b2c3" ]})
                 (answer 200 (user_id_body 0)))
              (user_id_body 0))
    as (Hres & Hlen & _); [reflexivity..|].
  split_and!; [exact Hres | exact Hlen | reflexivity].
Defined.

Lemma nonzero_user_id_returned_witness :
  outcome (getMeIdentity opaque_config primary_accepted) = Ok 42%Z
  ∧ length (wire (getMeIdentity opaque_config primary_accepted)) = 1.
Proof.
  apply (nonzero_user_id_returned opaque_config primary_accepted 0
           (mkExchange
              (mkRequest "GET" "https://mythic.example.com/me"
                         {[ "Apitoken" := "a1b2c3" ]})
              (answer 200 (user_id_body 42)))
           (user_id_body 42) 42); [reflexivity.. | done].
Defined.

Lemma negative_user_id_accepted_witness :
  outcome (getMeIdentity opaque_config negative_user_id) = Ok (-5)%Z.
Proof.
  destruct (negative_user_id_accepted opaque_config negative_user_id 0
              (mkExchange
                 (mkRequest "GET" "https://mythic.example.com/me"
                            {[ "Apitoken" := "a1b2c3" ]})
                 (answer 200 (user_id_body (-5))))
              (user_id_body (-5)) (-5))
    as [Hneg _]; [reflexivity..|].
  apply Hneg. lia.
Defined.

Lemma transport_failures_are_fatal_witness :
  (outcome (getMeIdentity opaque_config connection_reset) =
     Err (WrapError "getMeIdentity" (ErrExternal "connection reset")
                    "failed to call /me endpoint")
   ∧ length (wire (getMeIdentity opaque_config connection_reset)) = 1)
  ∧ (outcome (getMeIdentity opaque_config truncated_body) =
       Err (WrapError "getMeIdentity" (ErrExternal "unexpected EOF")
                      "failed to read /me response")
     ∧ length (wire (getMeIdentity opaque_config truncated_body)) = 1).
Proof.
  split.
  - apply (proj1 (proj2
             (transport_failures_are_fatal opaque_config connection_reset))
             0 (mkExchange
                  (mkRequest "GET" "https://mythic.example.com/me"
                             {[ "Apitoken" := "a1b2c3" ]})
                  (Err (ErrExternal "connection reset"))));
      reflexivity.
  - apply (proj1 (proj2 (proj2
             (transport_failures_are_fatal opaque_config truncated_body)))
             0 (mkExchange
                  (mkRequest "GET" "https://mythic.example.com/me"
                             {[ "Apitoken" := "a1b2c3" ]})
                  (Ok (mkResponse 401 (Err (ErrExternal "unexpected EOF")))))
             401%Z);
      reflexivity.
Defined.

Lemma all_rejected_reports_last_witness :
  outcome (getMeIdentity opaque_config both_rejected) =
    Err (WrapError "getMeIdentity" ErrAuthenticationFailed
                   "/me returned status 403: forbidden").
Proof.
  destruct (all_rejected_reports_last opaque_config both_rejected)
    as (x & status & body & Hlast & Hreply & _ & _ & Hres).
  - intros [|[|k]] h Hh; [| |discriminate Hh].
    + eexists. split; [reflexivity|]. by exists 401%Z, "unauthorized".
    + eexists. split; [reflexivity|]. by exists 403%Z, "forbidden".
  - injection Hlast as <-. injection Hreply as <- <-. exact Hres.
Defined.

Lemma identity_endpoint_url_witness :
  wire (getMeIdentity opaque_config fallback_accepted) !! 1 =
    Some (mkExchange
            (mkRequest "GET" "https://mythic.example.com/me"
                       {[ "Authorization" := "Bearer a1b2c3" ]})
            (answer 200 (user_id_body 7)))
  ∧ "https://mythic.example.com/me" =
      "https://" +:+ stripScheme_model "mythic.example.com" +:+ "/me".
Proof.
  split; [reflexivity|].
  refine (proj1 (identity_endpoint_url opaque_config fallback_accepted 1
                   (mkExchange
                      (mkRequest "GET" "https://mythic.example.com/me"
                                 {[ "Authorization" := "Bearer a1b2c3" ]})
                      (answer 200 (user_id_body 7))) _)).
  reflexivity.
Defined.

(** Primary rejected with 401, fallback accepted: the identity comes from
    the second exchange, sent with the bearer form of the same token. *)
Example fallback_scenario :
  outcome (getMeIdentity opaque_config fallback_accepted) = Ok 7%Z
  ∧ Header ∘ sent <$> wire (getMeIdentity opaque_config fallback_accepted) =
      [ {[ "Apitoken" := "a1b2c3" ]};
        {[ "Authorization" := "Bearer a1b2c3" ]} ].
Proof. split; reflexivity. Qed.

(** A JWT given as API token is reclassified by [NewClient]; the resolver
    then has a single bearer attempt, and a 403 is final. *)
Example bearer_only_scenario :
  attempts (normalize jwt_config) =
    [ {[ "Authorization" := "Bearer eyJhbGciOi.e30.sig" ]} ]
  ∧ getMeIdentity (normalize jwt_config) [answer 403 "forbidden"] =
      (Err (WrapError "getMeIdentity" ErrAuthenticationFailed
                      "/me returned status 403: forbidden"),
       [],
       [ mkExchange
           (mkRequest "GET" "https://mythic.example.com:7443/me"
                      {[ "Authorization" := "Bearer eyJhbGciOi.e30.sig" ]})
           (answer 403 "forbidden") ]).
Proof. split; reflexivity. Qed.

(** A body that is not JSON is a parse failure, not a reason to fall back. *)
Example parse_failure_scenario :
  getMeIdentity opaque_config [answer 200 "<html>"; answer 200 (user_id_body 1)]
  = (Err (WrapError "getMeIdentity" (ErrExternal "json: cannot unmarshal")
                    "failed to parse /me response"),
     [answer 200 (user_id_body 1)],
     [ mkExchange
         (mkRequest "GET" "https://mythic.example.com/me"
                    {[ "Apitoken" := "a1b2c3" ]})
         (answer 200 "<html>") ]).
Proof. reflexivity. Qed.

(** * Further properties of the resolver *)

Section ResolverMore.

Context {Extra World : Type} `{!Runtime World}.
Implicit Types (config : Config Extra) (w : World) (x y : Exchange).
Implicit Types (hs : list (gmap string string)) (t : list Exchange).
Implicit Types (res : result Z) (st uid : Z) (b url body : string).
Implicit Types (k : nat) (e cause : error).

Lemma handle_reply_Return_Ok r uid :
  handle_reply r = Return (Ok uid) ↔
  ∃ body, r = Ok (mkResponse 200 (Ok body))
          ∧ json_user_id body = Ok uid ∧ uid ≠ 0%Z.
Proof.
  unfold handle_reply, io_ReadAll.
  destruct r as [[status [body|err]]|err]; simpl;
    try (split; [done | by intros (? & ? & _)]).
  case_bool_decide as Hst; [|split; [done | intros (? & [= -> ->] & _); done]].
  rewrite Hst. split.
  - destruct (json_user_id body) as [n|?] eqn:Hjson; [|done].
    case_bool_decide; [done|]. intros [= ->]. by exists body.
  - intros (body' & [= <-] & -> & Hne). by rewrite bool_decide_eq_false_2.
Qed.

Lemma handle_reply_Return_Err r e :
  handle_reply r = Return (Err e) →
  ∃ cause msg, e = WrapError "getMeIdentity" cause msg
               ∧ msg ∈ attempt_failure_messages.
Proof.
  unfold handle_reply, io_ReadAll, attempt_failure_messages.
  destruct r as [[status [body|err]]|err]; simpl.
  - case_bool_decide; [|done].
    destruct (json_user_id body) as [n|?]; [case_bool_decide|];
      intros [= <-]; eexists _, _; (split; [done|]); by repeat constructor.
  - intros [= <-]. eexists _, _. split; [done|]. by repeat constructor.
  - intros [= <-]. eexists _, _. split; [done|]. by repeat constructor.
Qed.

Lemma status_message_head st b :
  ∃ rest, status_message st b = String "/" rest.
Proof. by eexists. Qed.

Lemma status_message_not_attempt_failure st b :
  status_message st b ∉ attempt_failure_messages.
Proof.
  destruct (status_message_head st b) as [rest ->].
  unfold attempt_failure_messages. rewrite !elem_of_cons, elem_of_nil.
  intros [?|[?|[?|[?|[?|[]]]]]]; discriminate.
Qed.

Lemma run_length url hs st b t res :
  loop_run url hs st b t res → length t ≤ length hs.
Proof. induction 1; simpl; lia. Qed.

Lemma run_first url h hs st b t res :
  loop_run url (h :: hs) st b t res →
  request_error "GET" url = None → 1 ≤ length t.
Proof. inversion 1; simplify_eq/=; intros; try congruence; lia. Qed.

(** A run that ends with an identity got it from its last exchange. *)
Lemma run_ok url hs st b t res uid :
  loop_run url hs st b t res → res = Ok uid →
  uid ≠ 0%Z
  ∧ ∃ x body, last t = Some x
              ∧ reply x = Ok (mkResponse 200 (Ok body))
              ∧ json_user_id body = Ok uid.
Proof.
  induction 1 as [| |h hs st b r res Hreq Hr
                  |h hs st b r st' b' t res Hreq Hr Hrun IH];
    intros Hres; try done.
  - subst res. apply handle_reply_Return_Ok in Hr as (body & -> & Hjson & Hne).
    split; [done|]. by eexists _, body.
  - destruct (IH Hres) as (Hne & x & body & Hlast & Hreply & Hjson).
    split; [done|]. exists x, body. split; [|done].
    rewrite last_cons. by rewrite Hlast.
Qed.

(** Whatever error a run ends with carries the name of the operation. *)
Lemma run_err url hs st b t res e :
  loop_run url hs st b t res → res = Err e →
  ∃ cause msg,
    e = WrapError "getMeIdentity" cause msg
    ∧ (msg ∈ attempt_failure_messages
       ∨ cause = ErrAuthenticationFailed ∧ ∃ st' b', msg = status_message st' b').
Proof.
  induction 1 as [st b|h hs st b err Hreq|h hs st b r res Hreq Hr
                  |h hs st b r st' b' t res Hreq Hr Hrun IH];
    intros Hres; [| | |by apply IH].
  - injection Hres as <-. eexists _, _. split; [done|]. right. eauto.
  - injection Hres as <-. eexists _, _. split; [done|]. left.
    unfold attempt_failure_messages. by repeat constructor.
  - subst res. apply handle_reply_Return_Err in Hr as (cause & msg & -> & Hmsg).
    eexists _, _. split; [done|]. by left.
Qed.

(** The authentication failure is reported by exhausted runs only. *)
Lemma run_auth_failed url hs st b t res st' b' :
  loop_run url hs st b t res →
  res = Err (WrapError "getMeIdentity" ErrAuthenticationFailed
                       (status_message st' b')) →
  length t = length hs ∧ Forall rejected t.
Proof.
  pose proof (status_message_not_attempt_failure st' b') as Hnot.
  induction 1 as [st b|h hs st b err Hreq|h hs st b r res Hreq Hr
                  |h hs st b r st'' b'' t res Hreq Hr Hrun IH];
    intros Hres.
  - done.
  - assert ("failed to create /me request" = status_message st' b') as Hmsg
      by (unfold WrapError in Hres; congruence).
    destruct Hnot. rewrite <- Hmsg.
    unfold attempt_failure_messages. by repeat constructor.
  - subst res. apply handle_reply_Return_Err in Hr as (cause & msg & Heq & Hmsg).
    assert (msg = status_message st' b') as ->
      by (unfold WrapError in Heq; congruence).
    done.
  - destruct (IH Hres) as [Hlen Hall]. split; [simpl; by rewrite Hlen|].
    apply Forall_cons. split; [|done].
    apply rejected_Next. by exists st'', b''.
Qed.

(** After a rejection the next header set, if there is one, is tried. *)
Lemma run_progress url hs st b t res k x :
  loop_run url hs st b t res →
  t !! k = Some x → rejected x → S k < length hs →
  is_Some (t !! S k).
Proof.
  intros Hrun. revert k.
  induction Hrun as [| |h hs st b r res Hreq Hr
                     |h hs st b r st' b' t res Hreq Hr Hrun IH];
    intros k Hk Hrej Hlen; simpl in *; try done.
  - destruct k; simplify_eq/=. by destruct (rejected_not_Return _ res Hrej).
  - destruct k as [|k]; simplify_eq/=; [|apply IH; [done..|lia]].
    destruct hs as [|h' hs]; [simpl in Hlen; lia|].
    pose proof (run_first _ _ _ _ _ _ _ Hrun Hreq) as Hone.
    apply lookup_lt_is_Some. lia.
Qed.

End ResolverMore.

Section ResolverExtras.

Context {Extra World : Type} `{!Runtime World}.
Implicit Types (config : Config Extra) (w : World) (x y : Exchange).
Implicit Types (k : nat) (body : string) (uid status : Z) (e err : error).

(** X1: a 200 answer whose body cannot be decoded ends the resolution at
    once with the decoder's error wrapped as a parse failure; no request
    follows it, whether or not a fallback exists. *)
Theorem parse_failure_is_fatal config w k x body err :
  wire (getMeIdentity config w) !! k = Some x →
  reply x = Ok (mkResponse 200 (Ok body)) →
  json_user_id body = Err err →
  outcome (getMeIdentity config w) =
    Err (WrapError "getMeIdentity" err "failed to parse /me response")
  ∧ length (wire (getMeIdentity config w)) = S k.
Proof.
  intros Hk Hreply Hjson.
  pose proof (getMeIdentity_run config w) as Hrun.
  eapply run_return_last in Hrun as [-> ->]; [done..|].
  by rewrite Hreply, handle_reply_200, Hjson.
Qed.

(** X2: an identity is never zero, and it is always the [user_id] decoded
    from the body of a 200 answer, namely the last exchange of the
    resolution. *)
Theorem identity_comes_from_last_answer config w uid :
  outcome (getMeIdentity config w) = Ok uid →
  uid ≠ 0%Z
  ∧ ∃ x body,
      last (wire (getMeIdentity config w)) = Some x
      ∧ reply x = Ok (mkResponse 200 (Ok body))
      ∧ json_user_id body = Ok uid.
Proof.
  intros Hres. exact (run_ok _ _ _ _ _ _ _ (getMeIdentity_run config w) Hres).
Qed.

(** X3: every error of the resolver is a wrapped error naming the operation
    [getMeIdentity]; its message is one of the five messages of a failed
    attempt, or the status report of an authentication failure. *)
Theorem errors_name_the_operation config w e :
  outcome (getMeIdentity config w) = Err e →
  ∃ cause msg,
    e = WrapError "getMeIdentity" cause msg
    ∧ (msg ∈ attempt_failure_messages
       ∨ cause = ErrAuthenticationFailed
         ∧ ∃ status body, msg = status_message status body).
Proof.
  intros Hres. exact (run_err _ _ _ _ _ _ _ (getMeIdentity_run config w) Hres).
Qed.

(** X4: a resolution sends at most one request per entry of the attempt
    list, hence at most two, and at most one when the opaque token is empty;
    it sends at least one whenever the request can be built. *)
Theorem request_count_bounds config w :
  length (wire (getMeIdentity config w)) ≤ length (attempts config)
  ∧ length (attempts config) ≤ 2
  ∧ (APIToken config = "" → length (wire (getMeIdentity config w)) ≤ 1)
  ∧ (request_error "GET" (meURL config) = None →
       1 ≤ length (wire (getMeIdentity config w))).
Proof.
  pose proof (getMeIdentity_run config w) as Hrun.
  pose proof (run_length _ _ _ _ _ _ Hrun) as Hlen.
  split_and!; [done | | |].
  - unfold attempts. case_bool_decide; simpl; lia.
  - intros Hemp. by rewrite (attempts_without_token _ Hemp) in Hlen.
  - intros Hreq. destruct (attempts_cons config) as [hs Hhs].
    rewrite Hhs in Hrun. by eapply run_first.
Qed.

(** X5: the authentication failure with its status report is returned only
    when every entry of the attempt list was tried and each was answered
    with a status other than 200; never after a transport, read or parse
    failure. *)
Theorem authentication_failure_means_all_rejected config w status body :
  outcome (getMeIdentity config w) =
    Err (WrapError "getMeIdentity" ErrAuthenticationFailed
                   (status_message status body)) →
  length (wire (getMeIdentity config w)) = length (attempts config)
  ∧ Forall rejected (wire (getMeIdentity config w)).
Proof.
  intros Hres.
  exact (run_auth_failed _ _ _ _ _ _ _ _ (getMeIdentity_run config w) Hres).
Qed.

(** X6: when the primary request is answered with any status other than
    200 and the opaque token is non-empty, the fallback request is made: a
    GET to the same address carrying [Authorization: Bearer <opaque token>]
    and nothing else. *)
Theorem fallback_follows_rejection config w x :
  wire (getMeIdentity config w) !! 0 = Some x →
  rejected x →
  APIToken config ≠ "" →
  ∃ y, wire (getMeIdentity config w) !! 1 = Some y
       ∧ sent y = mkRequest "GET" (meURL config)
                    {[ "Authorization" := "Bearer " +:+ APIToken config ]}.
Proof.
  intros Hx Hrej Hne.
  pose proof (getMeIdentity_run config w) as Hrun.
  destruct (run_progress _ _ _ _ _ _ _ _ Hrun Hx Hrej) as [y Hy].
  { rewrite (attempts_with_token _ Hne). simpl. lia. }
  exists y. split; [done|].
  destruct (run_sent _ _ _ _ _ _ _ _ Hrun Hy) as (h & Hh & ->).
  rewrite (attempts_with_token _ Hne) in Hh. by injection Hh as <-.
Qed.

(** X8: the k-th request of a resolution carries the k-th header set of
    the attempt list and nothing else, each name in the canonical form Go
    gives it: headers of an earlier attempt are not carried over, no request
    has more than one header, an opaque token sent first goes out as
    [Apitoken], and the fallback request carries [Authorization] only. *)
Theorem one_header_set_per_request config w k x :
  wire (getMeIdentity config w) !! k = Some x →
  (∃ h, attempts config !! k = Some h
        ∧ Header (sent x) = canonical_headers h)
  ∧ size (Header (sent x)) ≤ 1
  ∧ (k = 0 → AccessToken config = "" → APIToken config ≠ "" →
       Header (sent x) = {[ "Apitoken" := APIToken config ]})
  ∧ (k = 1 →
       Header (sent x) =
         {[ "Authorization" := "Bearer " +:+ APIToken config ]}
       ∧ Header (sent x) !! "Apitoken" = None
       ∧ Header (sent x) !! "apitoken" = None).
Proof.
  intros Hx.
  destruct (run_sent _ _ _ _ _ _ _ _ (getMeIdentity_run config w) Hx)
    as (h & Hh & ->). cbn [Header sent].
  split_and!.
  - by exists h.
  - unfold attempts, getAuthHeaders, fallbackHeaders in Hh.
    repeat case_bool_decide; destruct k as [|[|k]]; simplify_eq/=;
      rewrite ?canonical_headers_singleton, ?canonical_headers_empty,
        ?map_size_singleton, ?map_size_empty; lia.
  - intros -> Hacc Hapi.
    rewrite (attempts_with_token _ Hapi) in Hh. injection Hh as <-.
    rewrite (getAuthHeaders_apitoken _ Hacc Hapi).
    apply canonical_headers_apitoken.
  - intros ->.
    assert (h = {[ "Authorization" := "Bearer " +:+ APIToken config ]})
      as ->.
    { unfold attempts, fallbackHeaders in Hh.
      case_bool_decide; simplify_eq/=; done. }
    rewrite canonical_headers_bearer.
    split_and!; [done | by apply lookup_singleton_ne..].
Qed.

End ResolverExtras.

(** ** Both token fields populated *)

Section DualTokens.

Context {Extra World : Type} `{!Runtime World}.
Implicit Types (config : Config Extra) (w : World) (x y : Exchange).

(** C9: with both token fields populated the attempt list has exactly two
    entries, the bearer token first and the opaque token second, both sent
    as [Authorization: Bearer ...]; the two header sets differ as soon as
    the two tokens do.  The resolver does send them: whenever the request
    can be built the first request goes out with the bearer token, and when
    it is answered with a status other than 200 the second request goes out
    with the opaque token in the same header. *)
Theorem dual_tokens_two_bearer_attempts config :
  AccessToken config ≠ "" → APIToken config ≠ "" →
  attempts config =
    [ {[ "Authorization" := "Bearer " +:+ AccessToken config ]};
      {[ "Authorization" := "Bearer " +:+ APIToken config ]} ]
  ∧ length (attempts config) = 2
  ∧ (∀ w x, wire (getMeIdentity config w) !! 0 = Some x →
       Header (sent x) =
         {[ "Authorization" := "Bearer " +:+ AccessToken config ]})
  ∧ (∀ w x, wire (getMeIdentity config w) !! 1 = Some x →
       Header (sent x) =
         {[ "Authorization" := "Bearer " +:+ APIToken config ]})
  ∧ (AccessToken config ≠ APIToken config →
       attempts config !! 0 ≠ attempts config !! 1)
  ∧ (∀ w, request_error "GET" (meURL config) = None →
       ∃ x, wire (getMeIdentity config w) !! 0 = Some x
            ∧ sent x = mkRequest "GET" (meURL config)
                {[ "Authorization" := "Bearer " +:+ AccessToken config ]})
  ∧ (∀ w x, wire (getMeIdentity config w) !! 0 = Some x → rejected x →
       ∃ y, wire (getMeIdentity config w) !! 1 = Some y
            ∧ sent y = mkRequest "GET" (meURL config)
                {[ "Authorization" := "Bearer " +:+ APIToken config ]}).
Proof.
  intros Hacc Hapi.
  assert (attempts config =
    [ {[ "Authorization" := "Bearer " +:+ AccessToken config ]};
      {[ "Authorization" := "Bearer " +:+ APIToken config ]} ]) as Hatt.
  { by rewrite (attempts_with_token _ Hapi), (getAuthHeaders_bearer _ Hacc). }
  assert (∀ w k x h,
            wire (getMeIdentity config w) !! k = Some x →
            attempts config !! k = Some {[ "Authorization" := h ]} →
            sent x = mkRequest "GET" (meURL config) {[ "Authorization" := h ]})
    as Hsent.
  { intros w k x h Hx Hk.
    destruct (run_sent _ _ _ _ _ _ _ _ (getMeIdentity_run config w) Hx)
      as (h' & Hh' & ->).
    rewrite Hk in Hh'. injection Hh' as <-.
    by rewrite canonical_headers_bearer. }
  split_and!; [done | by rewrite Hatt | | | | |].
  - intros w x Hx.
    rewrite (Hsent w 0 x ("Bearer " +:+ AccessToken config) Hx);
      [done | by rewrite Hatt].
  - intros w x Hx.
    rewrite (Hsent w 1 x ("Bearer " +:+ APIToken config) Hx);
      [done | by rewrite Hatt].
  - rewrite Hatt. intros Hdiff [= Heq]. by apply Hdiff, bearer_header_inj.
  - intros w Hreq.
    pose proof (getMeIdentity_run config w) as Hrun.
    assert (is_Some (wire (getMeIdentity config w) !! 0)) as [x Hx].
    { apply lookup_lt_is_Some. rewrite Hatt in Hrun.
      pose proof (run_first _ _ _ _ _ _ _ Hrun Hreq). lia. }
    exists x. split; [done|]. apply (Hsent w 0); [done | by rewrite Hatt].
  - intros w x Hx Hrej.
    pose proof (getMeIdentity_run config w) as Hrun.
    destruct (run_progress _ _ _ _ _ _ _ _ Hrun Hx Hrej) as [y Hy].
    { rewrite Hatt. simpl. lia. }
    exists y. split; [done|]. apply (Hsent w 1); [done | by rewrite Hatt].
Qed.

End DualTokens.

Lemma dual_tokens_two_bearer_attempts_witness :
  ∃ x y,
    wire (getMeIdentity dual_config both_rejected) !! 0 = Some x
    ∧ sent x = mkRequest "GET" "http://mythic.example.com/me"
                 {[ "Authorization" := "Bearer eyJhbGciOi.e30.sig" ]}
    ∧ wire (getMeIdentity dual_config both_rejected) !! 1 = Some y
    ∧ sent y = mkRequest "GET" "http://mythic.example.com/me"
                 {[ "Authorization" := "Bearer a1b2c3" ]}
    ∧ attempts dual_config !! 0 ≠ attempts dual_config !! 1.
Proof.
  destruct (dual_tokens_two_bearer_attempts dual_config)
    as (_ & _ & _ & _ & Hdiff & Hfirst & Hnext); [done | done |].
  destruct (Hfirst both_rejected) as (x & Hx & Hsx); [reflexivity|].
  destruct (Hnext both_rejected x Hx) as (y & Hy & Hsy).
  { assert (reply x = answer 401 "unauthorized") as Hreply.
    { assert (wire (getMeIdentity dual_config both_rejected) !! 0
              = Some (mkExchange
                        (mkRequest "GET" "http://mythic.example.com/me"
                           {[ "Authorization" := "Bearer eyJhbGciOi.e30.sig" ]})
                        (answer 401 "unauthorized"))) as Hx' by reflexivity.
      rewrite Hx in Hx'. by injection Hx' as ->. }
    by exists 401%Z, "unauthorized". }
  exists x, y.
  split_and!; [exact Hx | exact Hsx | exact Hy | exact Hsy | by apply Hdiff].
Defined.

(** ** [NewClient] followed by [getMeIdentity] *)

Section NormalizedResolution.

Context {Extra World : Type} `{!Runtime World}.
Implicit Types (config : Config Extra) (w : World).

(** X9: for an API token that starts with [eyJ], the configuration left by
    [NewClient] gives the resolver a single attempt, the token as
    [Authorization: Bearer]; there is no fallback and no second request. *)
Theorem jwt_token_single_bearer_attempt config w :
  (∃ t, APIToken config = "eyJ" +:+ t) →
  attempts (normalize config) =
    [ {[ "Authorization" := "Bearer " +:+ APIToken config ]} ]
  ∧ length (wire (getMeIdentity (normalize config) w)) ≤ 1.
Proof.
  intros [t Ht].
  assert (is_jwt_token (APIToken config) = true) as Hjwt.
  { apply is_jwt_token_spec. split; [by rewrite Ht | by exists t]. }
  assert (attempts (normalize config) =
            [ {[ "Authorization" := "Bearer " +:+ APIToken config ]} ]) as Hatt.
  { rewrite (normalize_jwt _ Hjwt), attempts_without_token by done.
    rewrite getAuthHeaders_bearer; [done|]. simpl. by rewrite Ht. }
  split; [done|].
  pose proof (run_length _ _ _ _ _ _ (getMeIdentity_run (normalize config) w))
    as Hlen.
  by rewrite Hatt in Hlen.
Qed.

(** X10: after [NewClient] the opaque field never holds a token that starts
    with [eyJ]; the resolver has a fallback exactly when the caller's API
    token is non-empty and does not start with [eyJ], and the fallback then
    carries that token unchanged. *)
Theorem fallback_after_normalize config :
  is_jwt_token (APIToken (normalize config)) = false
  ∧ (is_Some (attempts (normalize config) !! 1) ↔
       APIToken config ≠ "" ∧ ¬ ∃ t, APIToken config = "eyJ" +:+ t)
  ∧ (∀ fb, attempts (normalize config) !! 1 = Some fb →
       fb = {[ "Authorization" := "Bearer " +:+ APIToken config ]}).
Proof.
  destruct (is_jwt_token (APIToken config)) eqn:Hjwt.
  - pose proof (proj1 (is_jwt_token_spec _) Hjwt) as [Hne Hpre].
    rewrite (normalize_jwt _ Hjwt), attempts_without_token by done. simpl.
    split_and!; [done | | done].
    split; [by intros [? ?] | by intros [_ []]].
  - assert (¬ (APIToken config ≠ "" ∧ ∃ t, APIToken config = "eyJ" +:+ t))
      as Hshape.
    { rewrite <- is_jwt_token_spec. by rewrite Hjwt. }
    rewrite (normalize_other _ Hjwt). split; [done|].
    destruct (decide (APIToken config = "")) as [Hemp|Hne].
    + rewrite (attempts_without_token _ Hemp). simpl.
      split; [|done]. split; [by intros [? ?] | by intros [? _]].
    + rewrite (attempts_with_token _ Hne). simpl. split.
      * split; [|by eexists]. intros _. split; [done|]. tauto.
      * by intros fb [= <-].
Qed.

End NormalizedResolution.

(** * Properties of the patch scripts *)

(** ** Searching and replacing *)

Section PythonStrFacts.

Implicit Types (s sub pre post old new u a b : list ascii) (i j k p q : nat).

Lemma occurs_at_occurs sub s i : occurs_at sub s i → occurs sub s.
Proof. intros (pre & post & -> & _). by exists pre, post. Qed.

Lemma occurs_occurs_at sub s : occurs sub s → ∃ i, occurs_at sub s i.
Proof. intros (pre & post & ->). exists (length pre). by exists pre, post. Qed.

Lemma occurs_at_0 sub s : occurs_at sub s 0 ↔ sub `prefix_of` s.
Proof.
  split.
  - intros (pre & post & -> & Hlen). apply nil_length_inv in Hlen as ->.
    by exists post.
  - intros [post ->]. by exists [], post.
Qed.

Lemma occurs_at_cons sub c s i :
  occurs_at sub (c :: s) (S i) ↔ occurs_at sub s i.
Proof.
  split.
  - intros (pre & post & Heq & Hlen). destruct pre as [|c' pre]; [done|].
    simplify_eq/=. by exists pre, post.
  - intros (pre & post & -> & <-). by exists (c :: pre), post.
Qed.

Lemma occurs_at_length sub s i :
  occurs_at sub s i → i + length sub ≤ length s.
Proof. intros (pre & post & -> & <-). rewrite !length_app. lia. Qed.

Lemma occurs_at_drop sub s k i :
  k ≤ length s → occurs_at sub (drop k s) i ↔ occurs_at sub s (k + i).
Proof.
  revert s. induction k as [|k IH]; intros s Hk; [by rewrite drop_0|].
  destruct s as [|c s]; [simpl in Hk; lia|]. simpl in *.
  rewrite occurs_at_cons. apply IH. lia.
Qed.

Lemma occurs_at_prefix_drop sub s i :
  occurs_at sub s i → sub `prefix_of` drop i s.
Proof.
  intros (pre & post & -> & <-). rewrite drop_app_length. by exists post.
Qed.

Lemma occurs_at_split sub s i :
  occurs_at sub s i → s = take i s ++ sub ++ drop (i + length sub) s.
Proof.
  intros (pre & post & -> & <-).
  rewrite take_app_length.
  rewrite (app_assoc pre sub post), <- length_app, drop_app_length.
  by rewrite <- app_assoc.
Qed.

(** [py_find] returns the first occurrence, and [None] when there is none. *)
Lemma py_find_spec sub s :
  match py_find sub s with
  | Some i => occurs_at sub s i ∧ ∀ j, j < i → ¬ occurs_at sub s j
  | None => ∀ j, ¬ occurs_at sub s j
  end.
Proof.
  induction s as [|c s IH]; simpl.
  - case_decide as Hpre.
    + split; [by apply occurs_at_0 | lia].
    + intros j (pre & post & Heq & _). apply Hpre.
      symmetry in Heq. apply app_eq_nil in Heq as [_ [-> _]%app_eq_nil].
      apply prefix_nil.
  - case_decide as Hpre.
    + split; [by apply occurs_at_0 | lia].
    + destruct (py_find sub s) as [i|]; simpl.
      * destruct IH as [Hocc Hmin]. split; [by apply occurs_at_cons|].
        intros [|j] Hj; [by rewrite occurs_at_0|].
        rewrite occurs_at_cons. apply Hmin. lia.
      * intros [|j]; [by rewrite occurs_at_0|].
        rewrite occurs_at_cons. apply IH.
Qed.

Lemma py_find_Some sub s i :
  py_find sub s = Some i →
  occurs_at sub s i ∧ ∀ j, j < i → ¬ occurs_at sub s j.
Proof. intros Hfind. pose proof (py_find_spec sub s) as H. by rewrite Hfind in H. Qed.

Lemma py_find_None sub s : py_find sub s = None → ¬ occurs sub s.
Proof.
  intros Hfind [i Hocc]%occurs_occurs_at.
  pose proof (py_find_spec sub s) as H. rewrite Hfind in H. by apply (H i).
Qed.

Lemma py_find_occurs sub s : occurs sub s → is_Some (py_find sub s).
Proof.
  intros Hocc. destruct (py_find sub s) eqn:Hfind; [by eexists|].
  by destruct (py_find_None _ _ Hfind).
Qed.

Lemma py_in_spec sub s : py_in sub s = true ↔ occurs sub s.
Proof.
  unfold py_in. rewrite bool_decide_eq_true. split.
  - intros [i Hfind]. by apply py_find_Some in Hfind as [?%occurs_at_occurs _].
  - apply py_find_occurs.
Qed.

(** [py_find_from] returns the first occurrence at or after [start]. *)
Lemma py_find_from_Some sub s start i :
  py_find_from sub s start = Some i →
  start ≤ i ∧ occurs_at sub s i
  ∧ ∀ j, start ≤ j → j < i → ¬ occurs_at sub s j.
Proof.
  unfold py_find_from. case_decide as Hstart; [|done].
  destruct (py_find sub (drop start s)) as [i'|] eqn:Hfind; [|done].
  intros [= <-]. apply py_find_Some in Hfind as [Hocc Hmin].
  split; [lia|]. split; [by apply occurs_at_drop|].
  intros j Hj Hlt Hoccj. apply (Hmin (j - start)); [lia|].
  apply occurs_at_drop; [done|]. by replace (start + (j - start)) with j by lia.
Qed.

Lemma py_find_from_None sub s start j :
  py_find_from sub s start = None → start ≤ j → ¬ occurs_at sub s j.
Proof.
  unfold py_find_from. intros Hfind Hj Hocc.
  pose proof (occurs_at_length _ _ _ Hocc) as Hlen.
  rewrite decide_True in Hfind by lia.
  destruct (py_find sub (drop start s)) as [i'|] eqn:Hfind'; [done|].
  apply (py_find_None _ _ Hfind').
  apply (occurs_at_occurs _ _ (j - start)), occurs_at_drop; [lia|].
  by replace (start + (j - start)) with j by lia.
Qed.

End PythonStrFacts.

(** ** [fix_getme.py] *)

Section FixGetme.

Implicit Types (content pre mid post : list ascii).

(** The script cut generically: the same function with the three constants
    abstracted, so that proofs never look inside them. *)
Lemma fix_getme_success content start_idx end_idx :
  py_find start_marker content = Some start_idx →
  py_find_from end_marker content (start_idx + length start_marker)
    = Some end_idx →
  ∃ pre mid post,
    content = pre ++ start_marker ++ mid ++ end_marker ++ post
    ∧ length pre = start_idx
    ∧ length (pre ++ start_marker ++ mid) = end_idx
    ∧ (∀ j, j < length mid →
         ¬ occurs_at end_marker (mid ++ end_marker ++ post) j).
Proof.
  generalize start_marker end_marker. intros sm em Hstart Hend.
  apply py_find_Some in Hstart as [Hs _].
  apply py_find_from_Some in Hend as (Hle & He & Hmin).
  pose proof (occurs_at_length _ _ _ Hs) as Hslen.
  destruct Hs as (pre & rest & -> & <-).
  assert (occurs_at em rest (end_idx - (length pre + length sm))) as He'.
  { assert (drop (length pre + length sm) (pre ++ sm ++ rest) = rest) as Hdrop
      by (by rewrite (app_assoc pre sm rest), <- length_app, drop_app_length).
    rewrite <- Hdrop. apply occurs_at_drop; [rewrite !length_app; lia|].
    by replace (length pre + length sm + (end_idx - (length pre + length sm)))
      with end_idx by lia. }
  destruct He' as (mid & post & -> & Hmid).
  exists pre, mid, post. split_and!; [done | done | |].
  - rewrite !length_app. lia.
  - intros j Hj Hocc. apply (Hmin (length pre + length sm + j)); [lia | lia |].
    apply occurs_at_drop; [rewrite !length_app; lia|].
    by rewrite (app_assoc pre sm), <- length_app, drop_app_length.
Qed.

Lemma fix_getme_slices pre sm mid em post :
  take (length pre) (pre ++ sm ++ mid ++ em ++ post) = pre
  ∧ drop (length (pre ++ sm ++ mid) + length em)
         (pre ++ sm ++ mid ++ em ++ post) = post
  ∧ py_slice (pre ++ sm ++ mid ++ em ++ post) (length pre)
             (length (pre ++ sm ++ mid) + length em) = sm ++ mid ++ em.
Proof.
  split_and!.
  - by rewrite take_app_length.
  - rewrite <- length_app.
    replace (pre ++ sm ++ mid ++ em ++ post)
      with (((pre ++ sm ++ mid) ++ em) ++ post) by (by rewrite <- !app_assoc).
    by rewrite drop_app_length.
  - unfold py_slice. rewrite drop_app_length.
    replace (length (pre ++ sm ++ mid) + length em - length pre)
      with (length (sm ++ mid ++ em)) by (rewrite !length_app; lia).
    replace (sm ++ mid ++ em ++ post) with ((sm ++ mid ++ em) ++ post)
      by (by rewrite <- !app_assoc).
    by rewrite take_app_length.
Qed.

(** X11: when [fix_getme.py] succeeds, the file it writes is the old file
    with one region replaced by the new function: the region starts at the
    first occurrence of the start marker and ends with the first occurrence
    of the end marker after it, and everything before and after the region
    is kept byte for byte.  The size it reports is that of the region. *)
Theorem fix_getme_replaces_one_region content :
  exit_code (fix_getme content) = 0%Z →
  ∃ pre mid post,
    content = pre ++ start_marker ++ mid ++ end_marker ++ post
    ∧ file (fix_getme content) = pre ++ new_func ++ post
    ∧ (∀ j, j < length pre → ¬ occurs_at start_marker content j)
    ∧ (∀ j, j < length mid →
         ¬ occurs_at end_marker (mid ++ end_marker ++ post) j)
    ∧ stdout (fix_getme content) =
        [ "Found function ("
            +:+ pretty (py_len (start_marker ++ mid ++ end_marker))
            +:+ " chars)";
          "OK: getMeIdentity updated with Bearer fallback" ].
Proof.
  unfold fix_getme.
  destruct (py_find start_marker content) as [start_idx|] eqn:Hstart; [|done].
  destruct (py_find_from end_marker content (start_idx + length start_marker))
    as [end_idx|] eqn:Hend; [|done].
  intros _.
  destruct (fix_getme_success _ _ _ Hstart Hend)
    as (pre & mid & post & Hcontent & Hpre & Hmidlen & Hmin).
  apply py_find_Some in Hstart as [_ Hfirst].
  exists pre, mid, post. cbn [file stdout].
  destruct (fix_getme_slices pre start_marker mid end_marker post)
    as (Htake & Hdrop & Hslice).
  rewrite <- Hpre, <- Hmidlen, Hcontent at 1; rewrite Hcontent at 1.
  rewrite <- Hpre, <- Hmidlen, Hcontent.
  rewrite Htake, Hdrop, Hslice.
  split_and!; [done | done | | done | done].
  intros j Hj. rewrite <- Hcontent. apply Hfirst. lia.
Qed.

(** X12: [fix_getme.py] succeeds exactly when the file contains the start
    marker followed, somewhere after its end, by the end marker; otherwise
    it exits with status 1, prints one line and leaves the file as it was. *)
Theorem fix_getme_verdict content :
  (exit_code (fix_getme content) = 0%Z ↔
     ∃ pre mid post,
       content = pre ++ start_marker ++ mid ++ end_marker ++ post)
  ∧ (exit_code (fix_getme content) ≠ 0%Z →
       exit_code (fix_getme content) = 1%Z
       ∧ file (fix_getme content) = content
       ∧ length (stdout (fix_getme content)) = 1).
Proof.
  unfold fix_getme.
  destruct (py_find start_marker content) as [start_idx|] eqn:Hstart.
  - destruct (py_find_from end_marker content
                (start_idx + length start_marker)) as [end_idx|] eqn:Hend.
    + split; [|done]. split; [intros _|done].
      destruct (fix_getme_success _ _ _ Hstart Hend)
        as (pre & mid & post & Hcontent & _). by exists pre, mid, post.
    + split; [|done]. split; [done|]. intros (pre & mid & post & Hcontent).
      apply py_find_Some in Hstart as [_ Hfirst].
      assert (start_idx ≤ length pre) as Hle.
      { destruct (decide (start_idx ≤ length pre)); [done|].
        destruct (Hfirst (length pre)); [lia|].
        exists pre, (mid ++ end_marker ++ post). by rewrite Hcontent. }
      destruct (py_find_from_None _ _ _
                  (length (pre ++ start_marker ++ mid)) Hend).
      * rewrite !length_app. lia.
      * exists (pre ++ start_marker ++ mid), post.
        by rewrite Hcontent, <- !app_assoc.
  - split; [|done]. split; [done|]. intros (pre & mid & post & Hcontent).
    destruct (py_find_None _ _ Hstart).
    exists pre, (mid ++ end_marker ++ post). by rewrite Hcontent.
Qed.

End FixGetme.

(** ** Replacing *)

Section ReplaceFacts.

Implicit Types (s sub pre post old new u a b : list ascii) (i j k p q : nat).

Lemma occurs_app_l u s t : occurs u s → occurs u (s ++ t).
Proof.
  intros (pre & post & ->). exists pre, (post ++ t). by rewrite <- !app_assoc.
Qed.

Lemma occurs_app_r u s t : occurs u s → occurs u (t ++ s).
Proof.
  intros (pre & post & ->). exists (t ++ pre), post. by rewrite <- !app_assoc.
Qed.

Lemma occurs_at_take u s p i :
  occurs_at u s p → p + length u ≤ i → occurs_at u (take i s) p.
Proof.
  intros (pre & post & -> & <-) Hle.
  exists pre, (take (i - (length pre + length u)) post). split; [|done].
  rewrite take_app_ge by lia. f_equal.
  rewrite take_app_ge by lia. f_equal. f_equal. lia.
Qed.

Lemma occurs_at_of_take u s p i : occurs_at u (take i s) p → occurs_at u s p.
Proof.
  intros (pre & post & Heq & <-).
  exists pre, (post ++ drop i s). split; [|done].
  by rewrite <- (take_drop i s) at 1; rewrite Heq, <- !app_assoc.
Qed.

Lemma prefix_drop_both a l k : a `prefix_of` l → drop k a `prefix_of` drop k l.
Proof.
  intros [t ->]. destruct (decide (k ≤ length a)).
  - rewrite drop_app_le by done. by exists t.
  - rewrite (drop_ge a) by lia. apply prefix_nil.
Qed.

Lemma comparable_spec a b :
  comparable a b = true ↔ a `prefix_of` b ∨ b `prefix_of` a.
Proof.
  unfold comparable. by rewrite orb_true_iff, !bool_decide_eq_true.
Qed.

Lemma no_overlap_spec a b :
  no_overlap a b = true →
  (∀ k, k < length a → comparable (drop k a) b = false)
  ∧ (∀ j, j < length b → comparable (drop j b) a = false).
Proof.
  unfold no_overlap. rewrite andb_true_iff, !forallb_forall.
  intros [Ha Hb]. split; intros n Hn; apply negb_true_iff.
  - apply Ha, in_seq. lia.
  - apply Hb, in_seq. lia.
Qed.

(** Two strings that cannot overlap never occur at positions that share a
    byte, or with one starting inside the other. *)
Lemma overlap_clash a b s p q :
  no_overlap a b = true →
  occurs_at a s p → occurs_at b s q →
  p < q + length b → q < p + length a → False.
Proof.
  intros [Ha Hb]%no_overlap_spec Hoa Hob Hpq Hqp.
  apply occurs_at_prefix_drop in Hoa, Hob.
  destruct (decide (p ≤ q)) as [Hle|Hgt].
  - specialize (Ha (q - p)). rewrite <- not_true_iff_false, comparable_spec in Ha.
    apply Ha; [lia|]. apply (prefix_weak_total _ _ (drop q s)); [|done].
    apply (prefix_drop_both _ _ (q - p)) in Hoa.
    rewrite drop_drop in Hoa. by replace (p + (q - p)) with q in Hoa by lia.
  - specialize (Hb (p - q)). rewrite <- not_true_iff_false, comparable_spec in Hb.
    apply Hb; [lia|]. apply (prefix_weak_total _ _ (drop p s)); [|done].
    apply (prefix_drop_both _ _ (p - q)) in Hob.
    rewrite drop_drop in Hob. by replace (q + (p - q)) with p in Hob by lia.
Qed.

Lemma replace_scan_skip old new k s :
  replace_scan old new k s = replace_scan old new 0 (drop k s).
Proof.
  revert k. induction s as [|c s IH]; intros [|k]; try done.
  simpl. apply IH.
Qed.

(** Python's [replace] told with [find]: replace the first occurrence, go
    on after it. *)
Lemma replace_scan_find old new s :
  old ≠ [] →
  replace_scan old new 0 s =
    match py_find old s with
    | None => s
    | Some i =>
        take i s ++ new ++ replace_scan old new 0 (drop (i + length old) s)
    end.
Proof.
  intros Hold. induction s as [|c s IH]; simpl.
  - case_decide as Hpre; [|done].
    apply prefix_nil_inv in Hpre. done.
  - case_decide as Hpre.
    + simpl. rewrite replace_scan_skip. do 2 f_equal.
      destruct old as [|c' old]; [done|]. simpl. by rewrite Nat.sub_0_r.
    + rewrite IH. destruct (py_find old s) as [i|]; simpl; done.
Qed.

Lemma replace_scan_contains old new s :
  old ≠ [] → occurs old s → occurs new (replace_scan old new 0 s).
Proof.
  intros Hold Hocc. rewrite replace_scan_find by done.
  destruct (py_find_occurs _ _ Hocc) as [i ->].
  by eexists _, _.
Qed.

Lemma length_old_pos old : old ≠ [] → 0 < length old.
Proof. destruct old; [done | simpl; lia]. Qed.

(** What cannot overlap [old] survives the replacement. *)
Lemma replace_scan_keeps old new u s :
  old ≠ [] → no_overlap old u = true →
  occurs u s → occurs u (replace_scan old new 0 s).
Proof.
  intros Hold Hclear. pose proof (length_old_pos _ Hold) as Hpos.
  remember (length s) as n eqn:Hn. revert s Hn.
  induction n as [n IH] using lt_wf_ind. intros s -> [p Hu]%occurs_occurs_at.
  rewrite replace_scan_find by done.
  destruct (py_find old s) as [i|] eqn:Hfind; [|by eapply occurs_at_occurs].
  apply py_find_Some in Hfind as [Ho _].
  pose proof (occurs_at_length _ _ _ Ho) as Hlen.
  destruct (decide (p + length u ≤ i)) as [Hbefore|Hnb].
  { apply occurs_app_l. eapply occurs_at_occurs. by apply occurs_at_take. }
  destruct (decide (i + length old ≤ p)) as [Hafter|Hna].
  { do 2 apply occurs_app_r.
    apply (IH (length (drop (i + length old) s))); [|done|].
    - rewrite length_drop. lia.
    - apply (occurs_at_occurs _ _ (p - (i + length old))).
      apply occurs_at_drop; [lia|].
      by replace (i + length old + (p - (i + length old))) with p by lia. }
  destruct (overlap_clash old u s i p); [done..|lia|lia].
Qed.

(** What cannot overlap [new] is not created by the replacement. *)
Lemma replace_scan_creates_nothing old new u s :
  old ≠ [] → no_overlap new u = true →
  occurs u (replace_scan old new 0 s) → occurs u s.
Proof.
  intros Hold Hclear. pose proof (length_old_pos _ Hold) as Hpos.
  remember (length s) as n eqn:Hn. revert s Hn.
  induction n as [n IH] using lt_wf_ind. intros s ->.
  rewrite replace_scan_find by done.
  destruct (py_find old s) as [i|] eqn:Hfind; [|done].
  apply py_find_Some in Hfind as [Ho _].
  pose proof (occurs_at_length _ _ _ Ho) as Hlen.
  pose proof (occurs_at_split _ _ _ Ho) as Hsplit.
  set (R := replace_scan old new 0 (drop (i + length old) s)).
  intros [p Hu]%occurs_occurs_at.
  assert (length (take i s) = i) as Hti by (rewrite length_take; lia).
  destruct (decide (p + length u ≤ i)) as [Hbefore|Hnb].
  { apply (occurs_at_occurs _ _ p), (occurs_at_of_take _ _ _ i).
    apply (occurs_at_take _ _ _ i) in Hu; [|done].
    by rewrite take_app_length' in Hu. }
  destruct (decide (i + length new ≤ p)) as [Hafter|Hna].
  { rewrite Hsplit. do 2 apply occurs_app_r.
    apply (IH (length (drop (i + length old) s))); [|done|].
    - rewrite length_drop. lia.
    - apply (occurs_at_occurs _ _ (p - (i + length new))). fold R.
      assert (drop (i + length new) (take i s ++ new ++ R) = R) as <-.
      { rewrite (app_assoc _ new R), <- Hti at 1.
        by rewrite <- length_app, drop_app_length. }
      apply occurs_at_drop; [pose proof (occurs_at_length _ _ _ Hu); lia|].
      by replace (i + length new + (p - (i + length new))) with p by lia. }
  destruct (overlap_clash new u (take i s ++ new ++ R) i p);
    [done | by exists (take i s), R | done | lia | lia].
Qed.

(** When [old] and [new] cannot overlap, no [old] is left. *)
Lemma replace_scan_removes old new s :
  old ≠ [] → no_overlap old new = true →
  ¬ occurs old (replace_scan old new 0 s).
Proof.
  intros Hold Hclear. pose proof (length_old_pos _ Hold) as Hpos.
  remember (length s) as n eqn:Hn. revert s Hn.
  induction n as [n IH] using lt_wf_ind. intros s ->.
  rewrite replace_scan_find by done.
  destruct (py_find old s) as [i|] eqn:Hfind; [|by apply py_find_None].
  apply py_find_Some in Hfind as [Ho Hmin].
  pose proof (occurs_at_length _ _ _ Ho) as Hlen.
  set (R := replace_scan old new 0 (drop (i + length old) s)).
  intros [p Hu]%occurs_occurs_at.
  assert (length (take i s) = i) as Hti by (rewrite length_take; lia).
  destruct (decide (p + length old ≤ i)) as [Hbefore|Hnb].
  { apply (Hmin p); [lia|]. apply (occurs_at_of_take _ _ _ i).
    apply (occurs_at_take _ _ _ i) in Hu; [|done].
    by rewrite take_app_length' in Hu. }
  destruct (decide (i + length new ≤ p)) as [Hafter|Hna].
  { apply (IH (length (drop (i + length old) s)) ltac:(rewrite length_drop; lia)
              (drop (i + length old) s) eq_refl).
    apply (occurs_at_occurs _ _ (p - (i + length new))). fold R.
    assert (drop (i + length new) (take i s ++ new ++ R) = R) as <-.
    { rewrite (app_assoc _ new R), <- Hti at 1.
      by rewrite <- length_app, drop_app_length. }
    apply occurs_at_drop; [pose proof (occurs_at_length _ _ _ Hu); lia|].
    by replace (i + length new + (p - (i + length new))) with p by lia. }
  destruct (overlap_clash old new (take i s ++ new ++ R) p i);
    [done | done | by exists (take i s), R | lia | lia].
Qed.

End ReplaceFacts.

Section ReplaceOnce.

Implicit Types (s old new u a b pre post : list ascii) (i j : nat).

Lemma py_replace_scan old new s :
  old ≠ [] → py_replace old new s = replace_scan old new 0 s.
Proof. by destruct old. Qed.

(** A string that occurs once is replaced there, and nothing else moves. *)
Lemma replace_scan_unique old new pre post :
  old ≠ [] →
  (∀ j, occurs_at old (pre ++ old ++ post) j → j = length pre) →
  replace_scan old new 0 (pre ++ old ++ post) = pre ++ new ++ post.
Proof.
  intros Hold Huniq. rewrite replace_scan_find by done.
  assert (occurs_at old (pre ++ old ++ post) (length pre)) as Hhere
    by (by exists pre, post).
  destruct (py_find old (pre ++ old ++ post)) as [i|] eqn:Hfind.
  2: { destruct (py_find_None _ _ Hfind). by eapply occurs_at_occurs. }
  apply py_find_Some in Hfind as [Hocc _]. apply Huniq in Hocc as ->.
  rewrite take_app_length.
  rewrite (app_assoc pre old post), <- length_app, drop_app_length.
  do 2 f_equal. rewrite replace_scan_find by done.
  destruct (py_find old post) as [i|] eqn:Hfind; [|done].
  apply py_find_Some in Hfind as [Hocc _].
  assert (length pre + length old + i = length pre); [|pose proof (length_old_pos _ Hold); lia].
  apply Huniq. apply occurs_at_drop; [rewrite !length_app; lia|].
  by rewrite (app_assoc pre old post), <- length_app, drop_app_length.
Qed.

End ReplaceOnce.

(** ** [fix_client.py] *)

Section FixClient.

Implicit Types (content pre mid post : list ascii).

Lemma old_imports_nonempty : old_imports ≠ [].
Proof. intros Heq. by apply (f_equal length) in Heq. Qed.

Lemma old_section_nonempty : old_section ≠ [].
Proof. intros Heq. by apply (f_equal length) in Heq. Qed.

Lemma imports_clear_of_section : no_overlap old_imports old_section = true.
Proof. by vm_compute. Qed.

Lemma new_imports_clear_of_section : no_overlap new_imports old_section = true.
Proof. by vm_compute. Qed.

Lemma section_clear_of_new_imports : no_overlap old_section new_imports = true.
Proof. by vm_compute. Qed.

Lemma imports_clear_of_new_imports : no_overlap old_imports new_imports = true.
Proof. by vm_compute. Qed.

Lemma new_section_clear_of_imports : no_overlap new_section old_imports = true.
Proof. by vm_compute. Qed.

Lemma section_clear_of_new_section : no_overlap old_section new_section = true.
Proof. by vm_compute. Qed.

(** The section anchor is neither lost nor created when the import block is
    rewritten. *)
Lemma section_after_imports content :
  occurs old_section (py_replace old_imports new_imports content)
  ↔ occurs old_section content.
Proof.
  rewrite py_replace_scan by apply old_imports_nonempty. split.
  - apply replace_scan_creates_nothing;
      [apply old_imports_nonempty | apply new_imports_clear_of_section].
  - apply replace_scan_keeps;
      [apply old_imports_nonempty | apply imports_clear_of_section].
Qed.

(** The three ways a run of [fix_client.py] can go. *)
Lemma fix_client_cases content :
  (occurs old_imports content ∧ occurs old_section content
   ∧ fix_client content =
       mkRun 0 ["OK: NewClient now detects JWT-as-APIToken and reclassifies it"]
         (py_replace old_section new_section
            (py_replace old_imports new_imports content)))
  ∨ (¬ occurs old_imports content
     ∧ fix_client content =
         mkRun 1 ["ERROR: Could not find imports block"] content)
  ∨ (occurs old_imports content ∧ ¬ occurs old_section content
     ∧ fix_client content =
         mkRun 1 ["ERROR: Could not find config.Validate section"] content).
Proof.
  unfold fix_client.
  destruct (py_in old_imports content) eqn:Himp; cbn [negb].
  - apply py_in_spec in Himp.
    destruct (py_in old_section (py_replace old_imports new_imports content))
      eqn:Hsec; cbn [negb].
    + apply py_in_spec in Hsec.
      apply (proj1 (section_after_imports content)) in Hsec. by left.
    + right; right. split_and!; [done | | done].
      rewrite <- section_after_imports, <- py_in_spec. by rewrite Hsec.
  - right; left. split; [|done]. rewrite <- py_in_spec. by rewrite Himp.
Qed.

(** What the doubly rewritten file contains. *)
Lemma patched_client content :
  occurs old_imports content → occurs old_section content →
  let out := py_replace old_section new_section
               (py_replace old_imports new_imports content) in
  occurs new_imports out ∧ occurs new_section out
  ∧ ¬ occurs old_imports out ∧ ¬ occurs old_section out.
Proof.
  intros Himp Hsec out. subst out.
  apply (proj2 (section_after_imports content)) in Hsec.
  rewrite (py_replace_scan old_section) by apply old_section_nonempty.
  rewrite (py_replace_scan old_imports) in * by apply old_imports_nonempty.
  split_and!.
  - apply replace_scan_keeps;
      [apply old_section_nonempty | apply section_clear_of_new_imports |].
    by apply replace_scan_contains; [apply old_imports_nonempty|].
  - by apply replace_scan_contains; [apply old_section_nonempty|].
  - intros Hocc.
    apply replace_scan_creates_nothing in Hocc;
      [|apply old_section_nonempty | apply new_section_clear_of_imports].
    revert Hocc. apply replace_scan_removes;
      [apply old_imports_nonempty | apply imports_clear_of_new_imports].
  - apply replace_scan_removes;
      [apply old_section_nonempty | apply section_clear_of_new_section].
Qed.

(** X13: [fix_client.py] succeeds exactly when the file contains both the
    import block and the lines around the insertion point; otherwise it
    exits with status 1, names the first anchor that is missing and leaves
    the file as it was, also when only the second anchor is missing. *)
Theorem fix_client_verdict content :
  (exit_code (fix_client content) = 0%Z ↔
     occurs old_imports content ∧ occurs old_section content)
  ∧ (exit_code (fix_client content) ≠ 0%Z →
       exit_code (fix_client content) = 1%Z
       ∧ file (fix_client content) = content
       ∧ stdout (fix_client content) =
           [ if py_in old_imports content
             then "ERROR: Could not find config.Validate section"
             else "ERROR: Could not find imports block" ]).
Proof.
  destruct (fix_client_cases content)
    as [(Himp & Hsec & ->)|[(Himp & ->)|(Himp & Hsec & ->)]];
    cbn [exit_code file stdout].
  - split; [|done]. by split.
  - split; [split; [done | by intros [? _]]|]. intros _.
    split_and!; [done | done |].
    by destruct (py_in old_imports content) eqn:Hin;
      [apply py_in_spec in Hin|].
  - split; [split; [done | by intros [_ ?]]|]. intros _.
    split_and!; [done | done |].
    apply py_in_spec in Himp. by rewrite Himp.
Qed.

(** X14: a file written by [fix_client.py] contains the new import block
    and the JWT detection lines, and neither of the two old anchors. *)
Theorem fix_client_applies_both_edits content :
  exit_code (fix_client content) = 0%Z →
  occurs new_imports (file (fix_client content))
  ∧ occurs new_section (file (fix_client content))
  ∧ ¬ occurs old_imports (file (fix_client content))
  ∧ ¬ occurs old_section (file (fix_client content)).
Proof.
  destruct (fix_client_cases content)
    as [(Himp & Hsec & ->)|[(Himp & ->)|(Himp & Hsec & ->)]];
    cbn [exit_code file stdout];
    [intros _ | done | done].
  by apply patched_client.
Qed.

(** X15: the patch cannot be applied twice: run again on a file it has
    written, [fix_client.py] finds no import block to rewrite, exits with
    status 1 and leaves the file as it is. *)
Theorem fix_client_not_repeatable content :
  exit_code (fix_client content) = 0%Z →
  fix_client (file (fix_client content)) =
    mkRun 1 ["ERROR: Could not find imports block"]
          (file (fix_client content)).
Proof.
  destruct (fix_client_cases content)
    as [(Himp & Hsec & ->)|[(Himp & ->)|(Himp & Hsec & ->)]];
    cbn [exit_code file stdout];
    [intros _ | done | done].
  destruct (patched_client content Himp Hsec) as (_ & _ & Hgone & _).
  destruct (fix_client_cases
              (py_replace old_section new_section
                 (py_replace old_imports new_imports content)))
    as [(Himp' & _)|[(_ & ->)|(Himp' & _)]]; done.
Qed.

(** X16: on a file that holds the import block once and the insertion
    point once, after it, [fix_client.py] changes these two places and
    nothing else. *)
Theorem fix_client_exact pre mid post :
  let content := pre ++ old_imports ++ mid ++ old_section ++ post in
  (∀ j, occurs_at old_imports content j → j = length pre) →
  (∀ j, occurs_at old_section content j →
        j = length (pre ++ old_imports ++ mid)) →
  fix_client content =
    mkRun 0 ["OK: NewClient now detects JWT-as-APIToken and reclassifies it"]
          (pre ++ new_imports ++ mid ++ new_section ++ post).
Proof.
  intros content Himp1 Hsec1.
  assert (occurs old_imports content) as Himp by (by eexists _, _).
  assert (occurs old_section content) as Hsec.
  { exists (pre ++ old_imports ++ mid), post. subst content.
    by rewrite <- !app_assoc. }
  destruct (fix_client_cases content)
    as [(_ & _ & ->)|[(Hno & _)|(_ & Hno & _)]]; [|done..].
  f_equal. rewrite !py_replace_scan
    by (apply old_imports_nonempty || apply old_section_nonempty).
  subst content.
  rewrite (replace_scan_unique old_imports) by (done || apply old_imports_nonempty).
  replace (pre ++ new_imports ++ mid ++ old_section ++ post)
    with ((pre ++ new_imports ++ mid) ++ old_section ++ post)
    by (by rewrite <- !app_assoc).
  rewrite (replace_scan_unique old_section);
    [by rewrite <- !app_assoc | apply old_section_nonempty |].
  intros q Hq. rewrite <- !app_assoc in Hq.
  pose proof (occurs_at_length _ _ _ Hq) as Hqlen.
  pose proof (length_old_pos _ old_section_nonempty) as Hpos.
  destruct (decide (q + length old_section ≤ length pre)) as [Hbefore|Hnb].
  { apply (occurs_at_take _ _ _ (length pre)) in Hq; [|done].
    rewrite take_app_length in Hq.
    assert (occurs_at old_section
              (pre ++ old_imports ++ mid ++ old_section ++ post) q) as Hc.
    { destruct Hq as (a & b & -> & <-).
      exists a, (b ++ old_imports ++ mid ++ old_section ++ post).
      by rewrite <- !app_assoc. }
    apply Hsec1 in Hc. rewrite !length_app in Hc. lia. }
  destruct (decide (length pre + length new_imports ≤ q)) as [Hafter|Hna].
  { assert (occurs_at old_section (mid ++ old_section ++ post)
              (q - (length pre + length new_imports))) as Hc.
    { assert (drop (length pre + length new_imports)
                (pre ++ new_imports ++ mid ++ old_section ++ post)
              = mid ++ old_section ++ post) as <-.
      { rewrite (app_assoc pre new_imports), <- length_app.
        by rewrite drop_app_length. }
      apply occurs_at_drop; [lia|].
      by replace (length pre + length new_imports
                  + (q - (length pre + length new_imports))) with q by lia. }
    assert (occurs_at old_section
              (pre ++ old_imports ++ mid ++ old_section ++ post)
              (length pre + length old_imports
               + (q - (length pre + length new_imports)))) as Hc'.
    { apply occurs_at_drop; [rewrite !length_app; lia|].
      by rewrite (app_assoc pre old_imports), <- length_app, drop_app_length. }
    apply Hsec1 in Hc'. rewrite !length_app in *. lia. }
  destruct (overlap_clash new_imports old_section
              (pre ++ new_imports ++ mid ++ old_section ++ post)
              (length pre) q);
    [apply new_imports_clear_of_section | by eexists _, _ | done | lia | lia].
Qed.

End FixClient.

Section FixGetmeAgain.

Implicit Types (content pre mid post : list ascii).

Lemma start_marker_nonempty : start_marker ≠ [].
Proof. intros Heq. by apply (f_equal length) in Heq. Qed.

Lemma start_marker_clear_of_new_func : no_overlap start_marker new_func = true.
Proof. by vm_compute. Qed.

(** X17: on a file in which the start marker occurs once, the patch cannot
    be applied twice: the function written by [fix_getme.py] no longer
    matches the marker, so a second run exits with status 1 and leaves the
    file as it is. *)
Theorem fix_getme_not_repeatable content :
  exit_code (fix_getme content) = 0%Z →
  (∀ i j, occurs_at start_marker content i →
          occurs_at start_marker content j → i = j) →
  fix_getme (file (fix_getme content)) =
    mkRun 1 ["ERROR: Could not find start of getMeIdentity"]
          (file (fix_getme content)).
Proof.
  intros Hok Huniq.
  assert (∃ pre mid post,
            content = pre ++ start_marker ++ mid ++ end_marker ++ post
            ∧ file (fix_getme content) = pre ++ new_func ++ post)
    as (pre & mid & post & Hcontent & ->).
  { revert Hok. unfold fix_getme.
    destruct (py_find start_marker content) as [start_idx|] eqn:Hstart; [|done].
    destruct (py_find_from end_marker content
                (start_idx + length start_marker)) as [end_idx|] eqn:Hend;
      [|done].
    intros _. cbn [file].
    destruct (fix_getme_success _ _ _ Hstart Hend)
      as (pre & mid & post & Hcontent & Hpre & Hmidlen & _).
    exists pre, mid, post. split; [done|].
    destruct (fix_getme_slices pre start_marker mid end_marker post)
      as (Htake & Hdrop & _).
    by rewrite <- Hpre, <- Hmidlen, Hcontent, Htake, Hdrop. }
  assert (occurs_at start_marker content (length pre)) as Hhere.
  { exists pre, (mid ++ end_marker ++ post). by rewrite Hcontent. }
  pose proof (length_old_pos _ start_marker_nonempty) as Hpos.
  assert (¬ occurs start_marker (pre ++ new_func ++ post)) as Hgone.
  { intros [q Hq]%occurs_occurs_at.
    pose proof (occurs_at_length _ _ _ Hq) as Hqlen.
    destruct (decide (q + length start_marker ≤ length pre)) as [Hbefore|Hnb].
    { apply (occurs_at_take _ _ _ (length pre)) in Hq; [|done].
      rewrite take_app_length in Hq.
      assert (occurs_at start_marker content q) as Hc.
      { destruct Hq as (a & b & -> & <-). rewrite Hcontent.
        exists a, (b ++ start_marker ++ mid ++ end_marker ++ post).
        by rewrite <- !app_assoc. }
      pose proof (Huniq _ _ Hc Hhere). lia. }
    destruct (decide (length pre + length new_func ≤ q)) as [Hafter|Hna].
    { assert (occurs_at start_marker post
                (q - (length pre + length new_func))) as Hc.
      { assert (drop (length pre + length new_func)
                  (pre ++ new_func ++ post) = post) as <-.
        { rewrite (app_assoc pre new_func), <- length_app.
          by rewrite drop_app_length. }
        apply occurs_at_drop; [lia|].
        by replace (length pre + length new_func
                    + (q - (length pre + length new_func))) with q by lia. }
      assert (occurs_at start_marker content
                (length (pre ++ start_marker ++ mid ++ end_marker)
                 + (q - (length pre + length new_func)))) as Hc'.
      { apply occurs_at_drop; [rewrite Hcontent, !length_app; lia|].
        replace content
          with ((pre ++ start_marker ++ mid ++ end_marker) ++ post)
          by (by rewrite Hcontent, <- !app_assoc).
        by rewrite drop_app_length. }
      pose proof (Huniq _ _ Hc' Hhere) as Heq.
      rewrite !length_app in Heq. lia. }
    destruct (overlap_clash start_marker new_func
                (pre ++ new_func ++ post) q (length pre));
      [apply start_marker_clear_of_new_func | done | by eexists _, _
      | lia | lia]. }
  unfold fix_getme at 1.
  destruct (py_find start_marker (pre ++ new_func ++ post)) as [i|] eqn:Hfind;
    [|done].
  apply py_find_Some in Hfind as [Hocc _].
  by destruct Hgone; eapply occurs_at_occurs.
Qed.

End FixGetmeAgain.

(** ** Runs on the sample inputs *)

Lemma only_at_spec sub s i :
  only_at sub s i = true → ∀ j, occurs_at sub s j → j = i.
Proof.
  unfold only_at. rewrite forallb_forall. intros Hscan j Hocc.
  pose proof (occurs_at_length _ _ _ Hocc) as Hlen.
  apply occurs_at_prefix_drop in Hocc.
  specialize (Hscan j). rewrite in_seq in Hscan.
  assert (0 ≤ j < 0 + S (length s)) as Hj by lia.
  apply Hscan, orb_true_iff in Hj as [Heq|Hno].
  - by apply bool_decide_eq_true in Heq.
  - apply negb_true_iff, bool_decide_eq_false in Hno. done.
Qed.

Lemma parse_failure_is_fatal_witness :
  outcome (getMeIdentity opaque_config malformed_body) =
    Err (WrapError "getMeIdentity" (ErrExternal "json: cannot unmarshal")
                   "failed to parse /me response")
  ∧ length (wire (getMeIdentity opaque_config malformed_body)) = 1.
Proof.
  apply (parse_failure_is_fatal opaque_config malformed_body 0
           (mkExchange
              (mkRequest "GET" "https://mythic.example.com/me"
                         {[ "Apitoken" := "a1b2c3" ]})
              (answer 200 "<html>"))
           "<html>"); reflexivity.
Defined.

Lemma identity_comes_from_last_answer_witness :
  (7 ≠ 0)%Z
  ∧ ∃ x body,
      last (wire (getMeIdentity opaque_config fallback_accepted)) = Some x
      ∧ reply x = Ok (mkResponse 200 (Ok body))
      ∧ decode_user_id body = Ok 7%Z.
Proof.
  exact (identity_comes_from_last_answer opaque_config fallback_accepted 7
           eq_refl).
Defined.

Lemma errors_name_the_operation_witness :
  ∃ cause msg,
    WrapError "getMeIdentity" ErrAuthenticationFailed
              "/me returned status 403: forbidden"
      = WrapError "getMeIdentity" cause msg
    ∧ (msg ∈ attempt_failure_messages
       ∨ cause = ErrAuthenticationFailed
         ∧ ∃ status body, msg = status_message status body).
Proof.
  apply (errors_name_the_operation opaque_config both_rejected).
  reflexivity.
Defined.

Lemma authentication_failure_means_all_rejected_witness :
  length (wire (getMeIdentity opaque_config both_rejected))
    = length (attempts opaque_config)
  ∧ Forall rejected (wire (getMeIdentity opaque_config both_rejected)).
Proof.
  apply (authentication_failure_means_all_rejected
           opaque_config both_rejected 403 "forbidden").
  reflexivity.
Defined.

Lemma fallback_follows_rejection_witness :
  ∃ y, wire (getMeIdentity opaque_config fallback_accepted) !! 1 = Some y
       ∧ sent y = mkRequest "GET" "https://mythic.example.com/me"
                    {[ "Authorization" := "Bearer a1b2c3" ]}.
Proof.
  refine (fallback_follows_rejection opaque_config fallback_accepted
            (mkExchange
               (mkRequest "GET" "https://mythic.example.com/me"
                          {[ "Apitoken" := "a1b2c3" ]})
               (answer 401 "unauthorized")) _ _ _).
  - reflexivity.
  - by exists 401%Z, "unauthorized".
  - done.
Defined.

Lemma one_header_set_per_request_witness :
  Header (sent (mkExchange
                  (mkRequest "GET" "https://mythic.example.com/me"
                             {[ "Apitoken" := "a1b2c3" ]})
                  (answer 401 "unauthorized")))
    = {[ "Apitoken" := "a1b2c3" ]}
  ∧ wire (getMeIdentity opaque_config fallback_accepted) !! 0 =
      Some (mkExchange
              (mkRequest "GET" "https://mythic.example.com/me"
                         {[ "Apitoken" := "a1b2c3" ]})
              (answer 401 "unauthorized")).
Proof.
  split; [|reflexivity].
  refine (proj1 (proj2 (proj2
            (one_header_set_per_request opaque_config fallback_accepted 0
               (mkExchange
                  (mkRequest "GET" "https://mythic.example.com/me"
                             {[ "Apitoken" := "a1b2c3" ]})
                  (answer 401 "unauthorized")) _))) _ _ _);
    [reflexivity | reflexivity | reflexivity | done].
Defined.

Lemma jwt_token_single_bearer_attempt_witness :
  attempts (normalize jwt_config) =
    [ {[ "Authorization" := "Bearer eyJhbGciOi.e30.sig" ]} ]
  ∧ length (wire (getMeIdentity (normalize jwt_config) both_rejected)) ≤ 1.
Proof.
  refine (jwt_token_single_bearer_attempt jwt_config both_rejected _).
  by exists "hbGciOi.e30.sig".
Defined.

Lemma fix_getme_replaces_one_region_witness :
  ∃ pre mid post,
    sample_auth_go = pre ++ start_marker ++ mid ++ end_marker ++ post
    ∧ file (fix_getme sample_auth_go) = pre ++ new_func ++ post
    ∧ (∀ j, j < length pre → ¬ occurs_at start_marker sample_auth_go j)
    ∧ (∀ j, j < length mid →
         ¬ occurs_at end_marker (mid ++ end_marker ++ post) j)
    ∧ stdout (fix_getme sample_auth_go) =
        [ "Found function ("
            +:+ pretty (py_len (start_marker ++ mid ++ end_marker))
            +:+ " chars)";
          "OK: getMeIdentity updated with Bearer fallback" ].
Proof. apply (fix_getme_replaces_one_region sample_auth_go). by vm_compute. Defined.

Lemma fix_client_applies_both_edits_witness :
  occurs new_imports (file (fix_client sample_client_go))
  ∧ occurs new_section (file (fix_client sample_client_go))
  ∧ ¬ occurs old_imports (file (fix_client sample_client_go))
  ∧ ¬ occurs old_section (file (fix_client sample_client_go)).
Proof. apply (fix_client_applies_both_edits sample_client_go). by vm_compute. Defined.

Lemma fix_client_not_repeatable_witness :
  fix_client (file (fix_client sample_client_go)) =
    mkRun 1 ["ERROR: Could not find imports block"]
          (file (fix_client sample_client_go)).
Proof. apply (fix_client_not_repeatable sample_client_go). by vm_compute. Defined.

Lemma fix_client_exact_witness :
  fix_client sample_client_go =
    mkRun 0 ["OK: NewClient now detects JWT-as-APIToken and reclassifies it"]
      ((text "package mythic" ++ text newline ++ text newline)
       ++ new_imports
       ++ (text newline ++ text newline
           ++ text "func NewClient(config *Config) (*Client, error) {"
           ++ text newline)
       ++ new_section
       ++ (text newline ++ text "}" ++ text newline)).
Proof.
  apply (fix_client_exact
           (text "package mythic" ++ text newline ++ text newline)
           (text newline ++ text newline
            ++ text "func NewClient(config *Config) (*Client, error) {"
            ++ text newline)
           (text newline ++ text "}" ++ text newline)).
  - apply only_at_spec. by vm_compute.
  - apply only_at_spec. by vm_compute.
Defined.

Lemma fix_getme_not_repeatable_witness :
  fix_getme (file (fix_getme sample_auth_go)) =
    mkRun 1 ["ERROR: Could not find start of getMeIdentity"]
          (file (fix_getme sample_auth_go)).
Proof.
  apply (fix_getme_not_repeatable sample_auth_go); [by vm_compute|].
  intros i j Hi Hj.
  assert (only_at start_marker sample_auth_go 16 = true) as Hscan
    by (by vm_compute).
  rewrite (only_at_spec _ _ _ Hscan i Hi). symmetry.
  by apply (only_at_spec _ _ _ Hscan).
Defined.
